(** * Concurrent: the worker-thread pool and the Mandelbrot renderers

    A shallow embedding of [threadpool.cpp] and of the two versions of
    [mandelbrot.cpp] (sequential and multithreaded), with the properties
    their description states about them.

    - [Mandelbrot]: the escape-time loop, the colour table and the column
      split of the multithreaded renderer.  C++ [double] is IEEE binary64,
      here Rocq's primitive floats; C++ [int] values are [Z], and the
      loop counter and the colour components are shown to stay in range.
      The image is a matrix without bounds checks; stores are considered
      only inside it.
    - [Pool]: the thread pool as an interleaving small-step machine.  One
      step is one source line of one thread; the schedule is an explicit
      list of events, so every run can be evaluated.  Memory is
      sequentially consistent: a read of [stop] sees the last write, also
      the destructor's, which is made without the mutex.  [std::mutex],
      [std::condition_variable] and [std::thread] behave as the C++
      standard describes them: [wait] may wake spuriously, [notify_one]
      wakes one waiting thread if there is one, and [join] on a handle
      that is not joinable throws [std::system_error].  The destructor
      ends the life of the pool: once it has returned, nothing more is
      called on the object.  Running a Job is one step that records it;
      what the Job does is not modelled. *)

From Stdlib Require Import ZArith Floats Lia String Ascii DecimalString.
From stdpp Require Import base option list.

Open Scope Z_scope.

(* ===================================================================== *)
(** * Mandelbrot renderers (mandelbrot.cpp, both versions)               *)
(* ===================================================================== *)

Module Mandelbrot.

(** [INT_MAX] of the 32-bit C++ [int]. *)
Definition INT_MAX : Z := 2147483647.

(** Conversion [int -> double] as in [x * (range / width)]: exact below
    2^53 in magnitude, which covers every [int]. *)
Definition double_of_int (x : Z) : float :=
  if x <? 0 then PrimFloat.opp (PrimFloat.of_uint63 (Uint63.of_Z (- x)))
  else PrimFloat.of_uint63 (Uint63.of_Z x).

(** The [while] loop of [findMandelBrot]: the state is [(i, zr, zi)];
    [None] when the fuel runs out before the loop condition fails. *)
Fixpoint mandel_loop (fuel : nat) (cr ci : float) (max_iterations : Z)
    (i : Z) (zr zi : float) : option Z :=
  if (i <? max_iterations) && PrimFloat.ltb (zr * zr + zi * zi)%float 4%float
  then match fuel with
       | O => None
       | S fuel' =>
           let temp := (zr * zr - zi * zi + cr)%float in
           let zi' := (2 * zr * zi + ci)%float in
           mandel_loop fuel' cr ci max_iterations (i + 1) temp zi'
       end
  else Some i.

(** [int findMandelBrot(double cr, double ci, int max_iterations)], run
    with a bound on the number of loop iterations. *)
Definition findMandelBrot_run (fuel : nat) (cr ci : float)
    (max_iterations : Z) : option Z :=
  i ← mandel_loop fuel cr ci max_iterations 0 0%float 0%float;
  Some (if i >=? max_iterations then -1 else i).

(** The same with the budget [max_iterations] itself, which is always
    enough (see [findMandelBrot_run_total]). *)
Definition findMandelBrot (cr ci : float) (max_iterations : Z) : Z :=
  default (-1) (findMandelBrot_run (Z.to_nat max_iterations) cr ci max_iterations).

Definition mapToReal (x width : Z) (minR maxR : float) : float :=
  let range := (maxR - minR)%float in
  (double_of_int x * (range / double_of_int width) + minR)%float.

Definition mapToImaginary (y height : Z) (minI maxI : float) : float :=
  let range := (maxI - minI)%float in
  (double_of_int y * (range / double_of_int height) + minI)%float.

(** [int * getColor(int n)]: the three [int]s of the returned array. *)
Definition getColor (n : Z) : Z * Z * Z :=
  if n =? -1 then (0, 0, 0)
  else if n =? 0 then (255, 0, 0)
  else if n <? 16 then (16 * (16 - n), 0, 16 * n - 1)
  else if n <? 32 then (0, 16 * (n - 16), 16 * (32 - n) - 1)
  else if n <? 64 then (8 * (n - 32), 8 * (64 - n) - 1, 0)
  else (255 - (n - 64) * 4, 0, 0).

(** [RGB<unsigned char>]; storing an [int] in an [unsigned char] field
    reduces it modulo 256. *)
Record RGB : Type := mkRGB { r : Z; g : Z; b : Z }.

Definition to_uchar (c : Z) : Z := c mod 256.

Definition store_colors (colors : Z * Z * Z) : RGB :=
  let '(c0, c1, c2) := colors in
  {| r := to_uchar c0; g := to_uchar c1; b := to_uchar c2 |}.

Definition maxIterations : Z := 127.
Definition minR : float := (-2.0)%float.
Definition maxR : float := 0x1.6666666666666p-1%float.  (* 0.7 *)
Definition minI : float := (-0x1.3333333333333p+0)%float. (* -1.2 *)
Definition maxI : float := 0x1.3333333333333p+0%float.  (* 1.2 *)

(** The body of the inner loop of [mandelbrot]: the pixel stored at row
    [i], column [j]. *)
Definition pixel (i j width height : Z) : RGB :=
  let cr := mapToReal j width minR maxR in
  let ci := mapToImaginary i height minI maxI in
  let n := findMandelBrot cr ci maxIterations in
  store_colors (getColor n).

(** [PPMImage]: [height] rows of [width] pixels each. *)
Abbreviation PPMImage := (list (list RGB)).

(** [image[i][j] = px].  The matrix of [PPMImage] checks no index: a
    store outside the image has undefined behaviour in the code, and the
    value given here for such a store (the image unchanged) stands for
    nothing.  Every statement about stores below is made for an image that
    is [well_formed] and holds the rows and columns stored to, where the
    store is the one of the code. *)
Definition set_pixel (image : PPMImage) (i j : Z) (px : RGB) : PPMImage :=
  alter (fun row => <[Z.to_nat j := px]> row) (Z.to_nat i) image.

(** [image[i][j]] read back; [None] outside the image. *)
Definition get_pixel (image : PPMImage) (i j : Z) : option RGB :=
  row ← image !! Z.to_nat i; row !! Z.to_nat j.

(** The [(row, column)] pairs the two nested loops of the multithreaded
    [mandelbrot(minX, maxX, width, height, image)] visit, in order. *)
Definition visited (minX maxX height : Z) : list (Z * Z) :=
  i ← seqZ 0 height; j ← seqZ minX (maxX - minX); [(i, j)].

Definition mandelbrot (minX maxX width height : Z) (image : PPMImage) : PPMImage :=
  foldl (fun img '(i, j) => set_pixel img i j (pixel i j width height))
        image (visited minX maxX height).

(** The sequential version: one pair of loops over the whole image. *)
Definition mandelbrot_sequential (width height : Z) (image : PPMImage) : PPMImage :=
  mandelbrot 0 width width height image.

(** [main] of the multithreaded version: the column range handed to
    thread [i], and the list of them for [i = 0 .. threads - 1]. *)
Definition thread_range (width threads i : Z) : Z * Z :=
  let part := width / threads in
  (part * i, part * (i + 1)).

Definition thread_ranges (width threads : Z) : list (Z * Z) :=
  thread_range width threads <$> seqZ 0 threads.

Definition width : Z := 1600.
Definition height : Z := 1300.
Definition threads : Z := 4.

(** The columns thread [i] writes. *)
Definition columns (range : Z * Z) : list Z :=
  seqZ range.1 (range.2 - range.1).

(** ** The escape-time loop, one pass at a time *)

(** The body of the [while] loop on [(zr, zi)]. *)
Definition mandel_next (cr ci : float) (z : float * float) : float * float :=
  let '(zr, zi) := z in
  ((zr * zr - zi * zi + cr)%float, (2 * zr * zi + ci)%float).

(** The second conjunct of the loop condition. *)
Definition bounded (z : float * float) : bool :=
  let '(zr, zi) := z in PrimFloat.ltb (zr * zr + zi * zi)%float 4%float.

(** [(zr, zi)] after [k] passes from [(0.0, 0.0)]. *)
Definition orbit (cr ci : float) (k : nat) : float * float :=
  Nat.iter k (mandel_next cr ci) (0%float, 0%float).

(** ** The image as a whole *)

(** The shape [PPMImage image(height, width)] allocates: [rows] rows of
    [cols] pixels (their contents are whatever the memory held). *)
Definition well_formed (rows cols : Z) (image : PPMImage) : Prop :=
  length image = Z.to_nat rows
  /\ Forall (fun row => length row = Z.to_nat cols) image.

(** The stores of the renderer, in the order of the list [l]. *)
Definition write_all (width height : Z) (l : list (Z * Z)) (image : PPMImage) : PPMImage :=
  foldl (fun img '(i, j) => set_pixel img i j (pixel i j width height)) image l.

(** All the stores the threads of [main] make, thread after thread. *)
Definition thread_writes (width height threads : Z) : list (Z * Z) :=
  rg ← thread_ranges width threads; visited rg.1 rg.2 height.

(** The image in which every pixel has the colour of its point. *)
Definition rendered (width height : Z) : PPMImage :=
  (fun i => (fun j => pixel i j width height) <$> seqZ 0 width) <$> seqZ 0 height.






End Mandelbrot.

(* ===================================================================== *)
(** * The thread pool (threadpool.cpp)                                   *)
(* ===================================================================== *)

Module Pool.

(** Threads of the system: the caller that owns the pool, and the worker
    threads [workers[0]], [workers[1]], ... *)
Inductive tid : Type :=
| Main
| Wk (w : nat).

#[global] Instance tid_eq_dec : EqDecision tid.
Proof. solve_decision. Defined.

(** Where a worker thread is in [Worker::operator()].  The local
    variable [task] is carried by the two states in which it is live. *)
Inductive wpc (Job : Type) : Type :=
| WLock                 (* 43: about to construct [locker] (acquire) *)
| WWait                 (* 44: lock held, the wait predicate is tested *)
| WSleep                (* 44: predicate false, lock held, about to sleep *)
| WBlocked              (* 44: inside [cond.wait], lock released, asleep *)
| WWoken                (* 44: inside [cond.wait], woken, lock not yet re-acquired *)
| WCheckStop            (* 45: lock held, [if (pool.stop) return;] *)
| WFront                (* 46-47: lock held, [front] and [pop_front] *)
| WUnlock (task : Job)  (* 48: lock held, [locker.unlock()] *)
| WCall (task : Job)    (* 49: lock released, [task()] *)
| WExited.              (* returned from [operator()] *)
Arguments WLock {Job}.
Arguments WWait {Job}.
Arguments WSleep {Job}.
Arguments WBlocked {Job}.
Arguments WWoken {Job}.
Arguments WCheckStop {Job}.
Arguments WFront {Job}.
Arguments WUnlock {Job} task.
Arguments WCall {Job} task.
Arguments WExited {Job}.

(** One element of [std::vector<std::thread> workers]: the thread of
    execution it stands for, and whether the handle is still joinable. *)
Record worker (Job : Type) : Type := mkWorker {
  pc : wpc Job;
  joinable : bool
}.
Arguments mkWorker {Job} pc joinable.
Arguments pc {Job} w.
Arguments joinable {Job} w.

(** What the owner of the pool does with it: calls of [enqueue], and the
    destructor (the only shutdown operation the class has), which ends
    the life of the object. *)
Inductive call (Job : Type) : Type :=
| CEnqueue (f : Job)
| CDestroy.
Arguments CEnqueue {Job} f.
Arguments CDestroy {Job}.

(** Where the caller is inside [enqueue] or [~ThreadPool]. *)
Inductive mpc (Job : Type) : Type :=
| MIdle                 (* between two calls *)
| MEnqPush (f : Job)    (* 71: lock held, [tasks.push_back] *)
| MEnqNotify            (* 72: lock held, [cond.notify_one()] *)
| MEnqUnlock            (* 73: [lock] goes out of scope *)
| MDtorNotify           (* 62: [cond.notify_all()] *)
| MDtorJoin (k : nat)   (* 63-64: [workers[k].join()] *)
| MThrown.              (* [join] threw [std::system_error] *)
Arguments MIdle {Job}.
Arguments MEnqPush {Job} f.
Arguments MEnqNotify {Job}.
Arguments MEnqUnlock {Job}.
Arguments MDtorNotify {Job}.
Arguments MDtorJoin {Job} k.
Arguments MThrown {Job}.

(** The pool object ([workers], [tasks], [stop], [queue_mutex]; the
    threads asleep on [cond] are the workers in state [WBlocked]), the
    caller, and three ghost logs: the Jobs in the order they were pushed,
    popped and called, and the number of destructor runs that returned. *)
Record state (Job : Type) : Type := mkState {
  workers : list (worker Job);
  tasks : list Job;
  stop : bool;
  queue_mutex : option tid;
  caller : mpc Job;
  program : list (call Job);
  submitted : list Job;
  dequeued : list Job;
  executed : list Job;
  shutdowns : nat
}.
Arguments mkState {Job}.
Arguments workers {Job} s.
Arguments tasks {Job} s.
Arguments stop {Job} s.
Arguments queue_mutex {Job} s.
Arguments caller {Job} s.
Arguments program {Job} s.
Arguments submitted {Job} s.
Arguments dequeued {Job} s.
Arguments executed {Job} s.
Arguments shutdowns {Job} s.

(** A call of a C++ function either returns or throws. *)
Inductive exception : Type :=
| InvalidConfiguration
| SystemError.

Inductive outcome (A : Type) : Type :=
| Returned (a : A)
| Thrown (what : exception).
Arguments Returned {A} a.
Arguments Thrown {A} what.

(** One scheduling decision: the caller runs its next line (with the
    choice [notify_one] makes among the sleeping threads), worker [w]
    runs its next line, or worker [w] wakes up spuriously, which
    [std::condition_variable::wait] allows. *)
Inductive event : Type :=
| EvMain (choice : nat)
| EvWorker (w : nat)
| EvSpurious (w : nat).

Section WithJob.
Context {Job : Type}.

Definition set_workers (ws : list (worker Job)) (s : state Job) : state Job :=
  mkState ws (tasks s) (stop s) (queue_mutex s) (caller s) (program s)
          (submitted s) (dequeued s) (executed s) (shutdowns s).
Definition set_tasks (q : list Job) (s : state Job) : state Job :=
  mkState (workers s) q (stop s) (queue_mutex s) (caller s) (program s)
          (submitted s) (dequeued s) (executed s) (shutdowns s).
Definition set_stop (b : bool) (s : state Job) : state Job :=
  mkState (workers s) (tasks s) b (queue_mutex s) (caller s) (program s)
          (submitted s) (dequeued s) (executed s) (shutdowns s).
Definition set_mutex (m : option tid) (s : state Job) : state Job :=
  mkState (workers s) (tasks s) (stop s) m (caller s) (program s)
          (submitted s) (dequeued s) (executed s) (shutdowns s).
Definition set_caller (c : mpc Job) (s : state Job) : state Job :=
  mkState (workers s) (tasks s) (stop s) (queue_mutex s) c (program s)
          (submitted s) (dequeued s) (executed s) (shutdowns s).
Definition set_program (p : list (call Job)) (s : state Job) : state Job :=
  mkState (workers s) (tasks s) (stop s) (queue_mutex s) (caller s) p
          (submitted s) (dequeued s) (executed s) (shutdowns s).
Definition log_submitted (f : Job) (s : state Job) : state Job :=
  mkState (workers s) (tasks s) (stop s) (queue_mutex s) (caller s) (program s)
          (submitted s ++ [f]) (dequeued s) (executed s) (shutdowns s).
Definition log_dequeued (f : Job) (s : state Job) : state Job :=
  mkState (workers s) (tasks s) (stop s) (queue_mutex s) (caller s) (program s)
          (submitted s) (dequeued s ++ [f]) (executed s) (shutdowns s).
Definition log_executed (f : Job) (s : state Job) : state Job :=
  mkState (workers s) (tasks s) (stop s) (queue_mutex s) (caller s) (program s)
          (submitted s) (dequeued s) (executed s ++ [f]) (shutdowns s).
Definition log_shutdown (s : state Job) : state Job :=
  mkState (workers s) (tasks s) (stop s) (queue_mutex s) (caller s) (program s)
          (submitted s) (dequeued s) (executed s) (S (shutdowns s)).

(** Worker [w] moves to [p]. *)
Definition set_pc (w : nat) (p : wpc Job) (ws : list (worker Job)) : list (worker Job) :=
  alter (fun wk => mkWorker p (joinable wk)) w ws.

(** [std::thread::join] returned for [workers[k]]: the handle is no
    longer joinable. *)
Definition set_joined (k : nat) (ws : list (worker Job)) : list (worker Job) :=
  alter (fun wk => mkWorker (pc wk) false) k ws.

Definition is_blocked (wk : worker Job) : bool :=
  match pc wk with WBlocked => true | _ => false end.

(** The workers asleep in [cond.wait], by index from [i] on. *)
Fixpoint blocked_from (i : nat) (ws : list (worker Job)) : list nat :=
  match ws with
  | [] => []
  | wk :: ws' =>
      (if is_blocked wk then [i] else []) ++ blocked_from (S i) ws'
  end.

(** [cond.notify_one()]: if threads are asleep on [cond], one of them
    (here the one [choice] selects) is woken; otherwise nothing. *)
Definition notify_one (choice : nat) (ws : list (worker Job)) : list (worker Job) :=
  match blocked_from 0 ws with
  | [] => ws
  | b :: bs => set_pc (nth (choice mod length (b :: bs)) (b :: bs) b) WWoken ws
  end.

Definition wake (wk : worker Job) : worker Job :=
  if is_blocked wk then mkWorker WWoken (joinable wk) else wk.

(** [cond.notify_all()]. *)
Definition notify_all (ws : list (worker Job)) : list (worker Job) :=
  wake <$> ws.

#[global] Arguments set_pc : simpl never.
#[global] Arguments set_joined : simpl never.
#[global] Arguments notify_one : simpl never.
#[global] Arguments notify_all : simpl never.

(** The wait predicate of line 44:
    [!pool.tasks.empty() || pool.stop]. *)
Definition wait_pred (s : state Job) : bool :=
  negb (bool_decide (tasks s = [])) || stop s.

(** One line of [Worker::operator()] run by worker [w]; [None] when the
    thread cannot move (the mutex is taken, it sleeps, it has returned). *)
Definition worker_step (w : nat) (s : state Job) : option (state Job) :=
  wk ← workers s !! w;
  match pc wk with
  | WLock | WWoken =>
      (* 43 / 44: acquire [queue_mutex] *)
      match queue_mutex s with
      | None => Some (set_workers (set_pc w WWait (workers s))
                        (set_mutex (Some (Wk w)) s))
      | Some _ => None
      end
  | WWait =>
      (* 44: cond.wait(locker, pred), the test of the predicate *)
      if wait_pred s
      then Some (set_workers (set_pc w WCheckStop (workers s)) s)
      else Some (set_workers (set_pc w WSleep (workers s)) s)
  | WSleep =>
      (* 44: cond.wait(locker, pred), unlock and sleep in one step *)
      Some (set_workers (set_pc w WBlocked (workers s)) (set_mutex None s))
  | WBlocked => None
  | WCheckStop =>
      (* 45: if (pool.stop) return;   (the destructor of [locker] unlocks) *)
      if stop s
      then Some (set_workers (set_pc w WExited (workers s)) (set_mutex None s))
      else Some (set_workers (set_pc w WFront (workers s)) s)
  | WFront =>
      (* 46-47: task = pool.tasks.front(); pool.tasks.pop_front();
         on an empty deque this is undefined; [front_ok] excludes it *)
      match tasks s with
      | [] => None
      | task :: q =>
          Some (set_workers (set_pc w (WUnlock task) (workers s))
                  (log_dequeued task (set_tasks q s)))
      end
  | WUnlock task =>
      (* 48: locker.unlock(); *)
      Some (set_workers (set_pc w (WCall task) (workers s)) (set_mutex None s))
  | WCall task =>
      (* 49: task(); *)
      Some (set_workers (set_pc w WLock (workers s)) (log_executed task s))
  | WExited => None
  end.

(** A spurious wake-up of worker [w]. *)
Definition spurious_step (w : nat) (s : state Job) : option (state Job) :=
  wk ← workers s !! w;
  if is_blocked wk
  then Some (set_workers (set_pc w WWoken (workers s)) s)
  else None.

(** One line of the caller: of [enqueue] (67-73) or of [~ThreadPool]
    (59-65).  [join] on a handle that is not joinable throws
    [std::system_error]; on a joinable one it waits for the thread to
    return.  The destructor is the last thing that happens to a pool:
    once it has returned the caller has no step left. *)
Definition main_step (choice : nat) (s : state Job) : option (state Job) :=
  match caller s with
  | MIdle =>
      match program s with
      | [] => None
      | CEnqueue f :: rest =>
          (* 70: std::unique_lock<std::mutex> lock(queue_mutex); *)
          match queue_mutex s with
          | None => Some (set_program rest (set_caller (MEnqPush f)
                            (set_mutex (Some Main) s)))
          | Some _ => None
          end
      | CDestroy :: rest =>
          (* 61: stop = true; *)
          Some (set_program rest (set_caller MDtorNotify (set_stop true s)))
      end
  | MEnqPush f =>
      (* 71: tasks.push_back(std::function<void()>(f)); *)
      Some (set_caller MEnqNotify (log_submitted f (set_tasks (tasks s ++ [f]) s)))
  | MEnqNotify =>
      (* 72: cond.notify_one(); *)
      Some (set_caller MEnqUnlock (set_workers (notify_one choice (workers s)) s))
  | MEnqUnlock =>
      (* 73: end of scope of [lock] *)
      Some (set_caller MIdle (set_mutex None s))
  | MDtorNotify =>
      (* 62: cond.notify_all(); *)
      Some (set_caller (MDtorJoin 0) (set_workers (notify_all (workers s)) s))
  | MDtorJoin k =>
      (* 63-64: for (auto &thread: workers) thread.join(); *)
      match workers s !! k with
      | None =>
          (* 65: the destructor returns and the members are destroyed; no
             call on the pool can follow, so what is left of the owner's
             program is dropped *)
          Some (set_program [] (set_caller MIdle (log_shutdown s)))
      | Some wk =>
          if joinable wk
          then match pc wk with
               | WExited => Some (set_caller (MDtorJoin (S k))
                                    (set_workers (set_joined k (workers s)) s))
               | _ => None
               end
          else Some (set_caller MThrown s)
      end
  | MThrown => None
  end.

Definition step (e : event) (s : state Job) : option (state Job) :=
  match e with
  | EvMain choice => main_step choice s
  | EvWorker w => worker_step w s
  | EvSpurious w => spurious_step w s
  end.

(** The thread an event belongs to. *)
Definition thread_of (e : event) : tid :=
  match e with
  | EvMain _ => Main
  | EvWorker w | EvSpurious w => Wk w
  end.

(** A schedule, run from [s]; [None] if one of its events cannot happen. *)
Fixpoint run (sched : list event) (s : state Job) : option (state Job) :=
  match sched with
  | [] => Some s
  | e :: sched' => s' ← step e s; run sched' s'
  end.

(** [size_t] is 64 bits wide; an [int] argument is converted modulo
    2^64. *)
Definition size_t_of_int (n : Z) : Z := n mod 18446744073709551616.

(** [ThreadPool::ThreadPool(size_t threads)]: [stop(false)], then one
    worker thread per count, each about to run line 43.
    Workers share nothing with the constructor but the pool, which they
    reach only through the mutex, so the spawning loop is taken as one
    step. *)
Definition ThreadPool_init (threads : Z) : state Job :=
  mkState (replicate (Z.to_nat (size_t_of_int threads)) (mkWorker WLock true))
          [] false None MIdle [] [] [] [] 0.

(** The constructor has no [throw] and no test of its argument: it
    returns on every path. *)
Definition ThreadPool_ctor (threads : Z) : outcome (state Job) :=
  Returned (ThreadPool_init threads).

(** A pool of [threads] workers whose owner is about to make the calls
    of [prog]. *)
Definition start (threads : Z) (prog : list (call Job)) : state Job :=
  set_program prog (ThreadPool_init threads).

Definition reachable (threads : Z) (prog : list (call Job)) (s : state Job) : Prop :=
  exists sched, run sched (start threads prog) = Some s.

(** Lines 44 to 48 as one function of the queue and the flag seen by a
    worker that holds the lock: what it hands to the loop body and what
    it leaves in the queue.  The function takes one value of [stop], the
    one read at line 45 when the predicate of line 44 holds; line 61 may
    write [stop] between the two reads, and the machine [step] keeps them
    apart. *)
Inductive dequeue_result : Type :=
| NoJobStop
| GotJob (task : Job)
| Suspended.

Definition dequeue_blocking (q : list Job) (stopped : bool) : dequeue_result * list Job :=
  if negb (bool_decide (q = [])) || stopped
  then if stopped then (NoJobStop, q)
       else match q with
            | task :: q' => (GotJob task, q')
            | [] => (Suspended, q)
            end
  else (Suspended, q).

(** Which thread states are inside a critical section of [queue_mutex]. *)
Definition wpc_holds (p : wpc Job) : bool :=
  match p with
  | WWait | WSleep | WCheckStop | WFront | WUnlock _ => true
  | _ => false
  end.

Definition mpc_holds (c : mpc Job) : bool :=
  match c with
  | MEnqPush _ | MEnqNotify | MEnqUnlock => true
  | _ => false
  end.

Definition wholds (ws : list (worker Job)) (w : nat) : bool :=
  match ws !! w with
  | Some wk => wpc_holds (pc wk)
  | None => false
  end.

Definition holds (s : state Job) (t : tid) : bool :=
  match t with
  | Main => mpc_holds (caller s)
  | Wk w => wholds (workers s) w
  end.

(** The caller is inside the destructor, or past it. *)
Definition mpc_dtor (c : mpc Job) : bool :=
  match c with
  | MDtorNotify | MDtorJoin _ | MThrown => true
  | _ => false
  end.

(** The Job a worker has popped and not yet called. *)
Definition job_of (p : wpc Job) : option Job :=
  match p with
  | WUnlock task | WCall task => Some task
  | _ => None
  end.

Definition in_flight (ws : list (worker Job)) : list Job :=
  omap (fun wk => job_of (pc wk)) ws.

(** The Jobs a list of calls submits, in order. *)
Definition jobs_of (prog : list (call Job)) : list Job :=
  omap (fun c => match c with CEnqueue f => Some f | CDestroy => None end) prog.

#[global] Arguments in_flight : simpl never.
#[global] Arguments jobs_of : simpl never.

Definition pending (c : mpc Job) : list Job :=
  match c with
  | MEnqPush f => [f]
  | _ => []
  end.

(** ** The invariant of the pool

    The properties every state reached from a fresh pool has; each is
    shown to hold initially and to survive every step. *)

(** The owner recorded for [queue_mutex] is the one thread inside a
    critical section, if there is one. *)
Definition mutex_ok (s : state Job) : Prop :=
  forall t : tid, holds s t = bool_decide (queue_mutex s = Some t).

(** The Jobs called and the Jobs popped but not yet called are the Jobs
    popped. *)
Definition exec_ok (s : state Job) : Prop :=
  executed s ++ in_flight (workers s) ≡ₚ dequeued s.

(** A worker at line 46 finds the queue non-empty; a worker at line 45
    has seen a non-empty queue or the flag. *)
Definition front_ok (s : state Job) : Prop :=
  forall (w : nat) (wk : worker Job), workers s !! w = Some wk ->
    (pc wk = WFront -> tasks s <> [])
    /\ (pc wk = WCheckStop -> tasks s <> [] \/ stop s = true).

(** A handle that is no longer joinable belongs to a worker that has
    returned. *)
Definition joined_ok (s : state Job) : Prop :=
  forall (w : nat) (wk : worker Job),
    workers s !! w = Some wk -> joinable wk = false -> pc wk = WExited.

(** While the destructor joins [workers[k]], the handles before it are
    joined already; once it has returned, all of them are. *)
Definition dtor_ok (s : state Job) : Prop :=
  (forall k : nat, caller s = MDtorJoin k ->
     forall (i : nat) (wk : worker Job),
       (i < k)%nat -> workers s !! i = Some wk -> joinable wk = false)
  /\ ((0 < shutdowns s)%nat ->
      forall (i : nat) (wk : worker Job),
        workers s !! i = Some wk -> joinable wk = false).

(** From the first line of the destructor on, [stop] is set. *)
Definition stop_ok (s : state Job) : Prop :=
  mpc_dtor (caller s) = true \/ (0 < shutdowns s)%nat -> stop s = true.

(** The Jobs pushed so far, the one being pushed and the ones still to
    be submitted are, in order, Jobs of the caller's program (all of them
    until the destructor has returned). *)
Definition prog_ok (prog : list (call Job)) (s : state Job) : Prop :=
  (submitted s ++ pending (caller s) ++ jobs_of (program s))
    `prefix_of` jobs_of prog.

Record Inv (prog : list (call Job)) (s : state Job) : Prop := mkInv {
  inv_mutex : mutex_ok s;
  inv_fifo : dequeued s ++ tasks s = submitted s;
  inv_exec : exec_ok s;
  inv_front : front_ok s;
  inv_joined : joined_ok s;
  inv_dtor : dtor_ok s;
  inv_stop : stop_ok s;
  inv_prog : prog_ok prog s
}.

(** Every worker thread has returned. *)
Definition all_exited (s : state Job) : Prop :=
  forall (w : nat) (wk : worker Job), workers s !! w = Some wk -> pc wk = WExited.

(** A worker past the stop check of line 45 with a Job to take or in
    hand, up to the call of line 49. *)
Definition committed (p : wpc Job) : bool :=
  match p with
  | WFront | WUnlock _ | WCall _ => true
  | _ => false
  end.

(** No worker stands between the stop check and [pop_front]. *)
Definition no_front (s : state Job) : Prop :=
  forall (w : nat) (wk : worker Job), workers s !! w = Some wk -> pc wk <> WFront.

(** A worker returns only when it has seen [stop] set. *)
Definition exit_ok (s : state Job) : Prop :=
  forall (w : nat) (wk : worker Job),
    workers s !! w = Some wk -> pc wk = WExited -> stop s = true.

(** Until a run of the destructor has returned, [join] has not thrown,
    and the handles that are not joinable are the ones the loop of the
    destructor has passed. *)
Definition first_run_ok (s : state Job) : Prop :=
  shutdowns s = 0%nat ->
  caller s <> MThrown
  /\ forall (i : nat) (wk : worker Job),
       workers s !! i = Some wk -> joinable wk = false ->
       exists k : nat, caller s = MDtorJoin k /\ (i < k)%nat.

(** A pool of one worker: the Jobs called and the Job in hand are, in
    this order, the Jobs popped. *)
Definition order_ok (s : state Job) : Prop :=
  exists wk : worker Job,
    workers s = [wk]
    /\ executed s ++ option_list (job_of (pc wk)) = dequeued s.

End WithJob.

(** [main] of threadpool.cpp: four workers, eight work items (a Job is
    identified by the [i] its closure captured), then the destructor at
    the end of [main]. *)
Definition main_program : list (call nat) :=
  (CEnqueue <$> seq 0 8) ++ [CDestroy].

Definition main_start : state nat := start 4 main_program.

End Pool.

(* ===================================================================== *)
(** * Properties of the Mandelbrot renderers                             *)
(* ===================================================================== *)

Section MandelbrotFacts.
Import Mandelbrot.

(** The loop leaves with a counter between its start value and the
    bound, after at most [max_iterations - i] iterations. *)
Lemma mandel_loop_total (fuel : nat) (cr ci : float) (max_iterations : Z) :
  forall (i : Z) (zr zi : float),
    i <= max_iterations ->
    (Z.to_nat (max_iterations - i) <= fuel)%nat ->
    exists n, mandel_loop fuel cr ci max_iterations i zr zi = Some n
              /\ i <= n <= max_iterations.
Proof.
  induction fuel as [|fuel IH]; intros i zr zi Hi Hfuel; cbn [mandel_loop].
  - destruct (Z.ltb_spec i max_iterations) as [Hlt|Hge]; [lia|].
    cbn. exists i. split; [reflexivity | lia].
  - destruct (Z.ltb_spec i max_iterations) as [Hlt|Hge]; cbn [andb].
    + destruct (PrimFloat.ltb _ _).
      * destruct (IH (i + 1) (zr * zr - zi * zi + cr)%float
                     (2 * zr * zi + ci)%float) as (n & Hn & Hr); [lia | lia |].
        exists n. split; [exact Hn | lia].
      * exists i. split; [reflexivity | lia].
    + exists i. split; [reflexivity | lia].
Qed.

(** More fuel than [max_iterations] changes nothing. *)
Lemma findMandelBrot_run_total (fuel : nat) (cr ci : float) (max_iterations : Z) :
  0 <= max_iterations ->
  (Z.to_nat max_iterations <= fuel)%nat ->
  exists n, findMandelBrot_run fuel cr ci max_iterations = Some n
            /\ (n = -1 \/ 0 <= n < max_iterations).
Proof.
  intros Hmax Hfuel. unfold findMandelBrot_run.
  destruct (mandel_loop_total fuel cr ci max_iterations 0 0%float 0%float)
    as (i & Hi & Hr); [lia | rewrite Z.sub_0_r; exact Hfuel |].
  rewrite Hi. cbn.
  destruct (Z.geb_spec i max_iterations) as [Hge|Hlt].
  - exists (-1). split; [reflexivity | left; reflexivity].
  - exists i. split; [reflexivity | right; lia].
Qed.

Lemma mandel_loop_fuel_irrelevant (fuel1 fuel2 : nat) (cr ci : float) (max_iterations : Z) :
  forall (i : Z) (zr zi : float) (n : Z),
    mandel_loop fuel1 cr ci max_iterations i zr zi = Some n ->
    (fuel1 <= fuel2)%nat ->
    mandel_loop fuel2 cr ci max_iterations i zr zi = Some n.
Proof.
  revert fuel2.
  induction fuel1 as [|fuel1 IH]; intros fuel2 i zr zi n H Hle.
  - cbn [mandel_loop] in H.
    destruct fuel2; cbn [mandel_loop];
      destruct ((i <? max_iterations) && PrimFloat.ltb _ _); congruence.
  - destruct fuel2 as [|fuel2]; [lia|].
    cbn [mandel_loop] in *.
    destruct ((i <? max_iterations) && PrimFloat.ltb _ _); [|exact H].
    apply IH; [exact H | lia].
Qed.

(** What the renderers pass to [getColor]. *)
Lemma findMandelBrot_127 (cr ci : float) :
  findMandelBrot cr ci maxIterations = -1
  \/ 0 <= findMandelBrot cr ci maxIterations <= 126.
Proof.
  unfold findMandelBrot.
  destruct (findMandelBrot_run_total (Z.to_nat maxIterations) cr ci maxIterations)
    as (n & Hn & Hr); [unfold maxIterations; lia | lia |].
  rewrite Hn. cbn. unfold maxIterations in Hr. lia.
Qed.

(** The components [getColor] computes for these inputs. *)
Lemma getColor_range (n : Z) :
  n = -1 \/ 0 <= n <= 126 ->
  0 <= (getColor n).1.1 <= 255 /\ 0 <= (getColor n).1.2 <= 255
  /\ 0 <= (getColor n).2 <= 255.
Proof.
  intros Hn. unfold getColor.
  repeat match goal with
         | |- context [ ?a =? ?b ] => destruct (Z.eqb_spec a b)
         | |- context [ ?a <? ?b ] => destruct (Z.ltb_spec a b)
         end; cbn; lia.
Qed.

Lemma to_uchar_small (c : Z) : 0 <= c <= 255 -> to_uchar c = c.
Proof. intros Hc. unfold to_uchar. apply Z.mod_small. lia. Qed.

(** C9: for [n = -1] and for [0 <= n <= 126], the results of
    [findMandelBrot] with 127 iterations, the three components of
    [getColor n] are in [0, 255], so the [unsigned char] fields of the
    pixel hold them unchanged. *)
Theorem getColor_fits_uchar (n : Z) :
  n = -1 \/ 0 <= n <= 126 ->
  let '(c0, c1, c2) := getColor n in
  0 <= c0 <= 255 /\ 0 <= c1 <= 255 /\ 0 <= c2 <= 255
  /\ store_colors (getColor n) = {| r := c0; g := c1; b := c2 |}.
Proof.
  intros Hn. pose proof (getColor_range n Hn) as (H0 & H1 & H2).
  destruct (getColor n) as [[c0 c1] c2]. cbn in H0, H1, H2.
  split; [exact H0|]. split; [exact H1|]. split; [exact H2|].
  unfold store_colors. rewrite !to_uchar_small by assumption. reflexivity.
Qed.

Lemma getColor_fits_uchar_witness :
  let '(c0, c1, c2) := getColor 31 in
  0 <= c0 <= 255 /\ 0 <= c1 <= 255 /\ 0 <= c2 <= 255
  /\ store_colors (getColor 31) = {| r := c0; g := c1; b := c2 |}.
Proof.
  apply (getColor_fits_uchar 31). right. lia.
Defined.

(** Every pixel either renderer stores is the colour [getColor] chose. *)
Lemma pixel_no_wrap (i j w h : Z) :
  let '(c0, c1, c2) :=
    getColor (findMandelBrot (mapToReal j w minR maxR)
                             (mapToImaginary i h minI maxI) maxIterations) in
  pixel i j w h = {| r := c0; g := c1; b := c2 |}.
Proof.
  unfold pixel.
  pose proof (getColor_range _ (findMandelBrot_127
    (mapToReal j w minR maxR) (mapToImaginary i h minI maxI))) as (H0 & H1 & H2).
  destruct (getColor _) as [[c0 c1] c2]. cbn in H0, H1, H2.
  unfold store_colors. rewrite !to_uchar_small by assumption. reflexivity.
Qed.

(** What the two loops of [mandelbrot] visit: the rows [0 .. height - 1]
    crossed with the columns [minX .. maxX - 1]. *)
Lemma elem_of_visited (minX maxX h i j : Z) :
  (i, j) ∈ visited minX maxX h <-> 0 <= i < h /\ minX <= j < maxX.
Proof.
  unfold visited. rewrite list_elem_of_bind. split.
  - intros (i' & Hj & Hi). apply list_elem_of_bind in Hj as (j' & Hij & Hj).
    apply list_elem_of_singleton in Hij. injection Hij as -> ->.
    apply elem_of_seqZ in Hi, Hj. lia.
  - intros [Hi Hj]. exists i. split; [|apply elem_of_seqZ; lia].
    apply list_elem_of_bind. exists j. split; [|apply elem_of_seqZ; lia].
    apply list_elem_of_singleton. reflexivity.
Qed.

Lemma NoDup_visited (minX maxX h : Z) : NoDup (visited minX maxX h).
Proof.
  unfold visited. apply NoDup_bind; [| |apply NoDup_seqZ].
  - intros i1 i2 [i j] _ _ H1 H2.
    apply list_elem_of_bind in H1 as (j1 & H1 & _).
    apply list_elem_of_bind in H2 as (j2 & H2 & _).
    apply list_elem_of_singleton in H1, H2. congruence.
  - intros i _. apply NoDup_bind; [| |apply NoDup_seqZ].
    + intros j1 j2 [i' j'] _ _ H1 H2.
      apply list_elem_of_singleton in H1, H2. congruence.
    + intros j _. apply NoDup_singleton.
Qed.

Lemma get_set_pixel_ne (image : PPMImage) (i j i' j' : Z) (px : RGB) :
  0 <= i -> 0 <= j -> 0 <= i' -> 0 <= j' -> (i, j) <> (i', j') ->
  get_pixel (set_pixel image i j px) i' j' = get_pixel image i' j'.
Proof.
  intros Hi Hj Hi' Hj' Hne. unfold get_pixel, set_pixel.
  destruct (decide (Z.to_nat i = Z.to_nat i')) as [Heq|Hneq].
  - rewrite <- Heq, list_lookup_alter_eq.
    destruct (image !! Z.to_nat i) as [row|]; cbn; [|reflexivity].
    apply list_lookup_insert_ne. intros Hj2.
    apply Hne. f_equal; lia.
  - rewrite list_lookup_alter_ne by exact Hneq. reflexivity.
Qed.

Lemma get_set_pixel_eq (image : PPMImage) (i j : Z) (px : RGB) :
  is_Some (get_pixel image i j) ->
  get_pixel (set_pixel image i j px) i j = Some px.
Proof.
  unfold get_pixel, set_pixel. intros [old Hold].
  rewrite list_lookup_alter_eq.
  destruct (image !! Z.to_nat i) as [row|]; cbn in *; [|discriminate].
  apply list_lookup_insert_eq. apply lookup_lt_Some in Hold. exact Hold.
Qed.

Lemma set_pixel_is_Some (image : PPMImage) (i j i' j' : Z) (px : RGB) :
  is_Some (get_pixel image i' j') ->
  is_Some (get_pixel (set_pixel image i j px) i' j').
Proof.
  unfold get_pixel, set_pixel. intros [old Hold].
  destruct (decide (Z.to_nat i = Z.to_nat i')) as [Heq|Hneq].
  - rewrite <- Heq in *. rewrite list_lookup_alter_eq.
    destruct (image !! Z.to_nat i) as [row|]; cbn in *; [|discriminate].
    apply lookup_lt_is_Some. rewrite length_insert.
    apply lookup_lt_Some in Hold. exact Hold.
  - rewrite list_lookup_alter_ne by exact Hneq. eauto.
Qed.

(** The effect of the two loops over any list of non-negative
    coordinates: the pixels listed get their colour, the others stay. *)
Lemma fold_set_pixel (w h : Z) (l : list (Z * Z)) :
  forall (image : PPMImage) (i j : Z),
    Forall (fun p => 0 <= p.1 /\ 0 <= p.2) l ->
    0 <= i -> 0 <= j ->
    is_Some (get_pixel image i j) ->
    get_pixel (foldl (fun img '(i, j) => set_pixel img i j (pixel i j w h))
                     image l) i j
    = if decide ((i, j) ∈ l) then Some (pixel i j w h)
      else get_pixel image i j.
Proof.
  induction l as [|[i0 j0] l IH] using rev_ind; intros image i j Hl Hi Hj Hsome.
  - cbn. destruct (decide _) as [Hin|_]; [inversion Hin | reflexivity].
  - rewrite foldl_app. cbn [foldl].
    apply Forall_app in Hl as [Hl Hp]. rewrite Forall_singleton in Hp. cbn in Hp.
    destruct (decide ((i0, j0) = (i, j))) as [Heq|Hne].
    + injection Heq as -> ->.
      rewrite get_set_pixel_eq.
      * destruct (decide _) as [_|Hnin]; [reflexivity|].
        exfalso. apply Hnin. apply elem_of_app. right. apply list_elem_of_singleton.
        reflexivity.
      * rewrite IH by assumption. destruct (decide _); eauto.
    + rewrite get_set_pixel_ne by (first [lia | exact Hne]).
      rewrite IH by assumption.
      destruct (decide ((i, j) ∈ l)) as [Hin|Hnin];
        destruct (decide ((i, j) ∈ l ++ [(i0, j0)])) as [Hin'|Hnin'];
        try reflexivity.
      * exfalso. apply Hnin'. apply elem_of_app. left. exact Hin.
      * exfalso. apply elem_of_app in Hin' as [Hin'|Hin']; [exact (Hnin Hin')|].
        apply list_elem_of_singleton in Hin'. congruence.
Qed.

Lemma thread_ranges_eq :
  thread_ranges width threads = [(0, 400); (400, 800); (800, 1200); (1200, 1600)].
Proof. reflexivity. Qed.

End MandelbrotFacts.

(* ===================================================================== *)
(** * The escape count and its colour                                    *)
(* ===================================================================== *)

Section EscapeCount.
Import Mandelbrot.

Lemma iter_mandel_next (cr ci : float) (k : nat) (z : float * float) :
  Nat.iter k (mandel_next cr ci) (mandel_next cr ci z)
  = Nat.iter (S k) (mandel_next cr ci) z.
Proof. symmetry. apply Nat.iter_succ_r. Qed.

(** What the loop returns from [(i, zr, zi)]: the number [d] of passes
    it makes is the first at which the bound is reached or the point has
    left the disc. *)
Lemma mandel_loop_first_exit (fuel : nat) (cr ci : float) (max_iterations : Z) :
  forall (i : Z) (zr zi : float) (n : Z),
    mandel_loop fuel cr ci max_iterations i zr zi = Some n ->
    exists d : nat,
      n = i + Z.of_nat d
      /\ (forall k : nat, (k < d)%nat ->
            i + Z.of_nat k < max_iterations
            /\ bounded (Nat.iter k (mandel_next cr ci) (zr, zi)) = true)
      /\ (max_iterations <= n
          \/ bounded (Nat.iter d (mandel_next cr ci) (zr, zi)) = false).
Proof.
  induction fuel as [|fuel IH]; intros i zr zi n Hloop; cbn [mandel_loop] in Hloop.
  - destruct (Z.ltb_spec i max_iterations) as [Hlt|Hge]; cbn [andb] in Hloop.
    + destruct (PrimFloat.ltb _ _) eqn:Hb; [discriminate|].
      injection Hloop as <-. exists 0%nat.
      split; [lia|]. split; [lia|]. right. exact Hb.
    + injection Hloop as <-. exists 0%nat.
      split; [lia|]. split; [lia|]. left. lia.
  - destruct (Z.ltb_spec i max_iterations) as [Hlt|Hge]; cbn [andb] in Hloop.
    + destruct (PrimFloat.ltb _ _) eqn:Hb.
      * apply IH in Hloop as (d & Hn & Hbelow & Hexit).
        change ((zr * zr - zi * zi + cr)%float, (2 * zr * zi + ci)%float)
          with (mandel_next cr ci (zr, zi)) in Hbelow, Hexit.
        exists (S d). split; [lia|]. split.
        -- intros [|k] Hk.
           ++ split; [lia | exact Hb].
           ++ destruct (Hbelow k ltac:(lia)) as [Hlt' Hb'].
              rewrite iter_mandel_next in Hb'. split; [lia | exact Hb'].
        -- rewrite iter_mandel_next in Hexit. exact Hexit.
      * injection Hloop as <-. exists 0%nat.
        split; [lia|]. split; [lia|]. right. exact Hb.
    + injection Hloop as <-. exists 0%nat.
      split; [lia|]. split; [lia|]. left. lia.
Qed.

(** [findMandelBrot] always has the fuel it needs. *)
Lemma findMandelBrot_unfold (cr ci : float) (max_iterations : Z) :
  exists i : Z,
    mandel_loop (Z.to_nat max_iterations) cr ci max_iterations 0 0 0 = Some i
    /\ findMandelBrot cr ci max_iterations
       = if i >=? max_iterations then -1 else i.
Proof.
  unfold findMandelBrot, findMandelBrot_run.
  destruct (Z.le_gt_cases 0 max_iterations) as [Hpos|Hneg].
  - destruct (mandel_loop_total (Z.to_nat max_iterations) cr ci max_iterations
                0 0%float 0%float) as (i & Hi & _); [lia | lia |].
    exists i. rewrite Hi. split; reflexivity.
  - exists 0. replace (Z.to_nat max_iterations) with 0%nat by lia.
    cbn [mandel_loop].
    destruct (Z.ltb_spec 0 max_iterations) as [Hlt|_]; [lia|].
    split; reflexivity.
Qed.

(** C8: for all doubles [cr], [ci] and every [int] [max_iterations >= 0],
    [findMandelBrot] terminates: a budget of [max_iterations] loop
    iterations (or any larger one) is enough for the loop to leave.  The
    value returned is [-1] when [|z|^2 < 4.0] held for each of the first
    [max_iterations] points of the orbit of [0] under [z -> z^2 + c], and
    otherwise the iteration count [n], [0 <= n < max_iterations], of the
    first point at which [|z|^2 < 4.0] fails ([|z|^2] has reached [4.0]),
    the test holding at every earlier count. *)
Theorem findMandelBrot_terminates_in_range
    (cr ci : float) (max_iterations : Z) (fuel : nat) :
  0 <= max_iterations <= INT_MAX ->
  (Z.to_nat max_iterations <= fuel)%nat ->
  exists n, findMandelBrot_run fuel cr ci max_iterations = Some n
            /\ findMandelBrot cr ci max_iterations = n
            /\ (n = -1 \/ 0 <= n < max_iterations)
            /\ ((n = -1
                 /\ forall k : nat, Z.of_nat k < max_iterations ->
                      bounded (orbit cr ci k) = true)
                \/ (0 <= n < max_iterations
                    /\ bounded (orbit cr ci (Z.to_nat n)) = false
                    /\ forall k : nat, Z.of_nat k < n ->
                         bounded (orbit cr ci k) = true)).
Proof.
  intros [Hmax _] Hfuel.
  destruct (findMandelBrot_unfold cr ci max_iterations) as (i & Hi & Hval).
  exists (findMandelBrot cr ci max_iterations).
  split; [|split; [reflexivity|]].
  { unfold findMandelBrot_run.
    rewrite (mandel_loop_fuel_irrelevant _ fuel _ _ _ _ _ _ _ Hi Hfuel).
    cbn. rewrite Hval. reflexivity. }
  rewrite Hval. clear Hval.
  apply mandel_loop_first_exit in Hi as (d & Hn & Hbelow & Hexit).
  rewrite Z.add_0_l in Hn. subst i.
  destruct (Z.geb_spec (Z.of_nat d) max_iterations) as [Hge|Hlt].
  - split; [left; reflexivity|].
    left. split; [reflexivity|]. intros k Hk. apply (Hbelow k). lia.
  - split; [right; lia|].
    right. split; [lia|]. rewrite Nat2Z.id. split.
    + destruct Hexit as [Hge|Hout]; [lia | exact Hout].
    + intros k Hk. apply (Hbelow k). lia.
Qed.

Lemma findMandelBrot_terminates_in_range_witness :
  exists n, findMandelBrot_run 200 1%float 1%float 127 = Some n
            /\ findMandelBrot 1%float 1%float 127 = n
            /\ (n = -1 \/ 0 <= n < 127)
            /\ ((n = -1
                 /\ forall k : nat, Z.of_nat k < 127 ->
                      bounded (orbit 1%float 1%float k) = true)
                \/ (0 <= n < 127
                    /\ bounded (orbit 1%float 1%float (Z.to_nat n)) = false
                    /\ forall k : nat, Z.of_nat k < n ->
                         bounded (orbit 1%float 1%float k) = true)).
Proof.
  apply (findMandelBrot_terminates_in_range 1%float 1%float 127 200).
  - unfold INT_MAX. lia.
  - lia.
Defined.

(** X1: the value of [findMandelBrot] is the escape time of the orbit of
    [0] under [z -> z^2 + c].  It is [-1] exactly when none of the first
    [max_iterations] points of the orbit has left the disc of radius 2
    (the test [zr * zr + zi * zi < 4.0] held for each); otherwise it is
    the index [n < max_iterations] of the first point that has, all
    points before it being inside. *)
Theorem findMandelBrot_escape_time (cr ci : float) (max_iterations : Z) :
  let n := findMandelBrot cr ci max_iterations in
  (n = -1
   /\ forall k : nat, Z.of_nat k < max_iterations -> bounded (orbit cr ci k) = true)
  \/ (0 <= n < max_iterations
      /\ bounded (orbit cr ci (Z.to_nat n)) = false
      /\ forall k : nat, Z.of_nat k < n -> bounded (orbit cr ci k) = true).
Proof.
  cbn zeta.
  destruct (findMandelBrot_unfold cr ci max_iterations) as (i & Hi & ->).
  apply mandel_loop_first_exit in Hi as (d & Hn & Hbelow & Hexit).
  rewrite Z.add_0_l in Hn. subst i.
  destruct (Z.geb_spec (Z.of_nat d) max_iterations) as [Hge|Hlt].
  - left. split; [reflexivity|]. intros k Hk.
    apply (Hbelow k). lia.
  - right. split.
    + split; [lia | exact Hlt].
    + rewrite Nat2Z.id. split.
      * destruct Hexit as [Hmax|Hout]; [lia | exact Hout].
      * intros k Hk. apply (Hbelow k). lia.
Qed.

(** X2: [findMandelBrot] never returns 0, whatever its arguments: the
    start point [(0.0, 0.0)] passes the test, so the loop body runs at
    least once when [max_iterations] is positive.  The branch [n == 0] of
    [getColor] is therefore never taken by the renderers. *)
Theorem findMandelBrot_never_zero (cr ci : float) (max_iterations : Z) :
  findMandelBrot cr ci max_iterations <> 0.
Proof.
  destruct (findMandelBrot_unfold cr ci max_iterations) as (i & Hi & ->).
  apply mandel_loop_first_exit in Hi as (d & Hn & Hbelow & Hexit).
  rewrite Z.add_0_l in Hn. subst i.
  destruct (Z.geb_spec (Z.of_nat d) max_iterations) as [Hge|Hlt]; [discriminate|].
  intros Hzero. assert (d = 0%nat) as -> by lia.
  destruct Hexit as [Hmax|Hout]; [lia|].
  vm_compute in Hout. discriminate.
Qed.

Lemma mandel_loop_larger_budget (fuel : nat) (cr ci : float) (m m' : Z) :
  forall (i : Z) (zr zi : float) (n : Z),
    mandel_loop fuel cr ci m i zr zi = Some n -> n < m -> m <= m' ->
    mandel_loop fuel cr ci m' i zr zi = Some n.
Proof.
  induction fuel as [|fuel IH]; intros i zr zi n Hloop Hn Hm;
    cbn [mandel_loop] in *.
  - destruct (Z.ltb_spec i m) as [Hlt|Hge]; cbn [andb] in Hloop.
    + destruct (Z.ltb_spec i m') as [_|Hge']; [|lia]. cbn [andb].
      destruct (PrimFloat.ltb _ _); [discriminate | exact Hloop].
    + injection Hloop as <-. lia.
  - destruct (Z.ltb_spec i m) as [Hlt|Hge]; cbn [andb] in Hloop.
    + destruct (Z.ltb_spec i m') as [_|Hge']; [|lia]. cbn [andb].
      destruct (PrimFloat.ltb _ _); [|exact Hloop].
      apply (IH _ _ _ _ Hloop Hn Hm).
    + injection Hloop as <-. lia.
Qed.

(** X3: an escape count does not depend on the budget: if
    [findMandelBrot] returns [n >= 0] with [max_iterations = m], it
    returns the same [n] for every larger budget [m']. *)
Theorem findMandelBrot_larger_budget (cr ci : float) (m m' n : Z) :
  findMandelBrot cr ci m = n -> 0 <= n -> m <= m' ->
  findMandelBrot cr ci m' = n.
Proof.
  intros Hres Hn Hm.
  destruct (findMandelBrot_unfold cr ci m) as (i & Hi & Hf).
  rewrite Hf in Hres.
  destruct (Z.geb_spec i m) as [Hge|Hlt]; [lia|]. subst i.
  destruct (findMandelBrot_unfold cr ci m') as (i' & Hi' & ->).
  apply (mandel_loop_larger_budget _ _ _ m m' _ _ _ _) in Hi; [|exact Hlt|exact Hm].
  apply (mandel_loop_fuel_irrelevant _ (Z.to_nat m')) in Hi; [|lia].
  rewrite Hi in Hi'. injection Hi' as <-.
  destruct (Z.geb_spec n m') as [Hge|_]; [lia | reflexivity].
Qed.

Lemma findMandelBrot_larger_budget_witness :
  findMandelBrot 1%float 1%float 300 = 2.
Proof.
  apply (findMandelBrot_larger_budget 1%float 1%float 127 300 2).
  - vm_compute. reflexivity.
  - lia.
  - lia.
Defined.

(** X4: on the values the renderers pass to it ([-1] and [1 .. 126]),
    [getColor] is injective: two different escape counts never get the
    same colour, and black is the colour of [-1] alone.  (The value 0,
    which [findMandelBrot] never returns, would share its colour with
    64.) *)
Theorem getColor_injective (n m : Z) :
  n = -1 \/ 1 <= n <= 126 ->
  m = -1 \/ 1 <= m <= 126 ->
  getColor n = getColor m -> n = m.
Proof.
  intros Hn Hm. unfold getColor.
  repeat match goal with
         | |- context [ ?a =? ?b ] => destruct (Z.eqb_spec a b)
         | |- context [ ?a <? ?b ] => destruct (Z.ltb_spec a b)
         end;
    intros Heq; try (injection Heq; intros); lia.
Qed.

Lemma getColor_injective_witness : 17 = 17.
Proof.
  apply (getColor_injective 17 17); [right; lia | right; lia | reflexivity].
Defined.

End EscapeCount.

(* ===================================================================== *)
(** * The rendered image                                                 *)
(* ===================================================================== *)

Section WholeImage.
Import Mandelbrot.

Lemma well_formed_get_pixel (rows cols : Z) (image : PPMImage) (i j : Z) :
  well_formed rows cols image -> 0 <= i < rows -> 0 <= j < cols ->
  is_Some (get_pixel image i j).
Proof.
  intros [Hlen Hrows] Hi Hj. unfold get_pixel.
  destruct (lookup_lt_is_Some_2 image (Z.to_nat i)) as [row Hrow]; [lia|].
  rewrite Hrow. cbn. apply lookup_lt_is_Some_2.
  rewrite Forall_forall in Hrows.
  rewrite (Hrows row) by (eapply list_elem_of_lookup_2; exact Hrow). lia.
Qed.

Lemma well_formed_set_pixel (rows cols : Z) (image : PPMImage) (i j : Z) (px : RGB) :
  well_formed rows cols image -> well_formed rows cols (set_pixel image i j px).
Proof.
  intros [Hlen Hrows]. unfold set_pixel. split.
  - rewrite length_alter. exact Hlen.
  - apply Forall_alter; [exact Hrows|].
    intros row _ Hrow. rewrite length_insert. exact Hrow.
Qed.

Lemma well_formed_write_all (rows cols w h : Z) (l : list (Z * Z)) :
  forall image : PPMImage,
    well_formed rows cols image -> well_formed rows cols (write_all w h l image).
Proof.
  unfold write_all. induction l as [|[i j] l IH]; intros image Hwf; [exact Hwf|].
  cbn [foldl]. apply IH, well_formed_set_pixel, Hwf.
Qed.

(** Two images of one shape with the same pixels are the same image. *)
Lemma well_formed_ext (rows cols : Z) (a b : PPMImage) :
  well_formed rows cols a -> well_formed rows cols b ->
  (forall i j, 0 <= i < rows -> 0 <= j < cols -> get_pixel a i j = get_pixel b i j) ->
  a = b.
Proof.
  intros [Hla Hra] [Hlb Hrb] Hpx. apply list_eq. intros i.
  destruct (decide (i < length a)%nat) as [Hi|Hi].
  - destruct (lookup_lt_is_Some_2 a i Hi) as [ra Ha].
    destruct (lookup_lt_is_Some_2 b i ltac:(lia)) as [rb Hb].
    rewrite Ha, Hb. f_equal. apply list_eq. intros j.
    rewrite Forall_forall in Hra, Hrb.
    pose proof (Hra ra (list_elem_of_lookup_2 _ _ _ Ha)) as Hlra.
    pose proof (Hrb rb (list_elem_of_lookup_2 _ _ _ Hb)) as Hlrb.
    destruct (decide (j < length ra)%nat) as [Hj|Hj].
    + specialize (Hpx (Z.of_nat i) (Z.of_nat j) ltac:(lia) ltac:(lia)).
      unfold get_pixel in Hpx. rewrite !Nat2Z.id, Ha, Hb in Hpx. exact Hpx.
    + rewrite !lookup_ge_None_2 by lia. reflexivity.
  - rewrite !lookup_ge_None_2 by lia. reflexivity.
Qed.

Lemma well_formed_rendered (w h : Z) : well_formed h w (rendered w h).
Proof.
  unfold rendered. split.
  - rewrite length_fmap, length_seqZ. reflexivity.
  - apply Forall_fmap, Forall_forall. intros i _. cbn.
    rewrite length_fmap, length_seqZ. reflexivity.
Qed.

Lemma get_pixel_rendered (w h i j : Z) :
  0 <= i < h -> 0 <= j < w ->
  get_pixel (rendered w h) i j = Some (pixel i j w h).
Proof.
  intros Hi Hj. unfold get_pixel, rendered.
  rewrite list_lookup_fmap, lookup_seqZ_lt by lia. cbn.
  rewrite list_lookup_fmap, lookup_seqZ_lt by lia. cbn.
  rewrite !Z2Nat.id by lia. reflexivity.
Qed.

(** The stores of all threads together: the rows of the image crossed
    with the columns below [threads * (width / threads)]. *)
Lemma elem_of_thread_writes (w h t i j : Z) :
  0 < t -> 0 <= w ->
  (i, j) ∈ thread_writes w h t <-> 0 <= i < h /\ 0 <= j < w / t * t.
Proof.
  intros Ht Hw. unfold thread_writes, thread_ranges.
  rewrite list_elem_of_bind.
  assert (Hpart : 0 <= w / t) by (apply Z.div_pos; lia).
  split.
  - intros (rg & Hin & Hrg).
    apply list_elem_of_fmap in Hrg as (k & -> & Hk).
    apply elem_of_seqZ in Hk. apply elem_of_visited in Hin.
    unfold thread_range in Hin. cbn in Hin. nia.
  - intros [Hi Hj].
    assert (Hpos : 0 < w / t) by nia.
    exists (thread_range w t (j / (w / t))). split.
    + apply elem_of_visited. unfold thread_range. cbn.
      pose proof (Z.div_mod j (w / t) ltac:(lia)) as Hdm.
      pose proof (Z.mod_pos_bound j (w / t) Hpos) as Hmb.
      split; [exact Hi | nia].
    + apply list_elem_of_fmap. exists (j / (w / t)). split; [reflexivity|].
      apply elem_of_seqZ.
      split; [apply Z.div_pos; lia|].
      rewrite Z.add_0_l. apply Z.div_lt_upper_bound; [exact Hpos | nia].
Qed.

(** X6: whatever the order in which the stores of the threads reach
    the image, a pixel of column [j] ends with the colour of its point if
    [j < threads * (width / threads)], and keeps what the image held
    before otherwise: the [width mod threads] last columns are rendered by
    no thread. *)
Theorem threads_render_columns (w h t : Z) (image : PPMImage) (l : list (Z * Z))
    (i j : Z) :
  0 < t -> 0 <= w ->
  well_formed h w image ->
  l ≡ₚ thread_writes w h t ->
  0 <= i < h -> 0 <= j < w ->
  get_pixel (write_all w h l image) i j
  = if decide (j < w / t * t) then Some (pixel i j w h)
    else get_pixel image i j.
Proof.
  intros Ht Hw Hwf Hperm Hi Hj. unfold write_all.
  rewrite fold_set_pixel.
  - destruct (decide ((i, j) ∈ l)) as [Hin|Hnin];
      destruct (decide (j < w / t * t)) as [Hc|Hnc]; try reflexivity.
    + rewrite Hperm in Hin. apply elem_of_thread_writes in Hin; lia.
    + exfalso. apply Hnin. rewrite Hperm. apply elem_of_thread_writes; lia.
  - apply Forall_forall. intros [i' j'] Hin. rewrite Hperm in Hin.
    apply elem_of_thread_writes in Hin; [cbn; lia | exact Ht | exact Hw].
  - lia.
  - lia.
  - apply (well_formed_get_pixel h w); assumption.
Qed.

Lemma threads_render_columns_witness :
  let image := [[mkRGB 9 9 9; mkRGB 9 9 9; mkRGB 9 9 9];
                [mkRGB 9 9 9; mkRGB 9 9 9; mkRGB 9 9 9]] in
  get_pixel (write_all 3 2 (reverse (thread_writes 3 2 2)) image) 1 2
  = if decide (2 < 3 / 2 * 2) then Some (pixel 1 2 3 2)
    else get_pixel image 1 2.
Proof.
  intros image.
  apply (threads_render_columns 3 2 2 image (reverse (thread_writes 3 2 2)) 1 2).
  - lia.
  - lia.
  - split; [reflexivity|]. repeat constructor.
  - apply reverse_Permutation.
  - lia.
  - lia.
Defined.

(** X7: when [threads] divides [width], as 4 divides 1600, the image
    the threads leave is the same for every order of their stores and for
    every initial content of the image, and it is the image the
    sequential renderer computes: every pixel has the colour of its
    point. *)
Theorem threads_equal_sequential (w h t : Z) (image image' : PPMImage)
    (l : list (Z * Z)) :
  0 < t -> 0 <= w -> w mod t = 0 ->
  well_formed h w image -> well_formed h w image' ->
  l ≡ₚ thread_writes w h t ->
  write_all w h l image = rendered w h
  /\ mandelbrot_sequential w h image' = rendered w h.
Proof.
  intros Ht Hw Hdiv Hwf Hwf' Hperm.
  assert (Hall : w / t * t = w).
  { pose proof (Z.div_mod w t ltac:(lia)) as Hdm. lia. }
  split.
  - apply (well_formed_ext h w);
      [apply well_formed_write_all, Hwf | apply well_formed_rendered |].
    intros i j Hi Hj. unfold write_all.
    rewrite fold_set_pixel;
      [ | | lia | lia | apply (well_formed_get_pixel h w); assumption ].
    + rewrite get_pixel_rendered by assumption.
      rewrite decide_True; [reflexivity|].
      rewrite Hperm. apply elem_of_thread_writes; lia.
    + apply Forall_forall. intros [i' j'] Hin. rewrite Hperm in Hin.
      apply elem_of_thread_writes in Hin; [cbn; lia | exact Ht | exact Hw].
  - unfold mandelbrot_sequential.
    apply (well_formed_ext h w);
      [apply (well_formed_write_all h w w h (visited 0 w h)), Hwf'
      | apply well_formed_rendered |].
    intros i j Hi Hj. unfold mandelbrot.
    rewrite fold_set_pixel;
      [ | | lia | lia | apply (well_formed_get_pixel h w); assumption ].
    + rewrite get_pixel_rendered by assumption.
      rewrite decide_True; [reflexivity|]. apply elem_of_visited. lia.
    + apply Forall_forall. intros [i' j'] Hin. apply elem_of_visited in Hin.
      cbn. lia.
Qed.

Lemma threads_equal_sequential_witness :
  write_all 2 1 (reverse (thread_writes 2 1 2)) [[mkRGB 9 9 9; mkRGB 9 9 9]]
  = rendered 2 1
  /\ mandelbrot_sequential 2 1 [[mkRGB 0 0 0; mkRGB 1 1 1]] = rendered 2 1.
Proof.
  apply (threads_equal_sequential 2 1 2).
  - lia.
  - lia.
  - reflexivity.
  - split; [reflexivity|]. repeat constructor.
  - split; [reflexivity|]. repeat constructor.
  - apply reverse_Permutation.
Defined.

(** What one call of [mandelbrot] leaves in the image, when its rows
    and columns lie inside. *)
Lemma get_pixel_mandelbrot (rows cols minX maxX w h : Z) (image : PPMImage) (i j : Z) :
  well_formed rows cols image ->
  0 <= minX -> maxX <= cols -> h <= rows ->
  0 <= i < rows -> 0 <= j < cols ->
  get_pixel (mandelbrot minX maxX w h image) i j
  = if decide (i < h /\ minX <= j < maxX) then Some (pixel i j w h)
    else get_pixel image i j.
Proof.
  intros Hwf HminX HmaxX Hh Hi Hj. unfold mandelbrot.
  rewrite fold_set_pixel;
    [ | | lia | lia | apply (well_formed_get_pixel rows cols); assumption ].
  - destruct (decide ((i, j) ∈ visited minX maxX h)) as [Hin|Hnin];
      destruct (decide (i < h /\ minX <= j < maxX)) as [Hr|Hnr]; try reflexivity.
    + apply elem_of_visited in Hin. lia.
    + exfalso. apply Hnin. apply elem_of_visited. lia.
  - apply Forall_forall. intros [i' j'] Hin. apply elem_of_visited in Hin.
    cbn. lia.
Qed.

(** X5: on an image of [rows] rows and [cols] columns that holds the
    rows below [height] and the columns [minX .. maxX - 1], one call
    [mandelbrot(minX, maxX, width, height, image)] makes every store
    inside the image, keeps the shape of the image, stores its colour in
    every pixel of those columns and rows, and leaves every other pixel of
    the image as it was. *)
Theorem mandelbrot_writes_its_columns (rows cols minX maxX w h : Z)
    (image : PPMImage) :
  well_formed rows cols image ->
  0 <= minX -> maxX <= cols -> h <= rows ->
  Forall (fun p => is_Some (get_pixel image p.1 p.2)) (visited minX maxX h)
  /\ well_formed rows cols (mandelbrot minX maxX w h image)
  /\ forall i j : Z, 0 <= i < rows -> 0 <= j < cols ->
       get_pixel (mandelbrot minX maxX w h image) i j
       = if decide (i < h /\ minX <= j < maxX) then Some (pixel i j w h)
         else get_pixel image i j.
Proof.
  intros Hwf HminX HmaxX Hh. split; [|split].
  - apply Forall_forall. intros [i j] Hin. apply elem_of_visited in Hin. cbn.
    apply (well_formed_get_pixel rows cols); [exact Hwf | lia | lia].
  - apply (well_formed_write_all rows cols w h (visited minX maxX h)), Hwf.
  - intros i j Hi Hj. apply (get_pixel_mandelbrot rows cols); assumption.
Qed.

Lemma mandelbrot_writes_its_columns_witness :
  let image := [[mkRGB 9 9 9; mkRGB 9 9 9; mkRGB 9 9 9; mkRGB 9 9 9];
                [mkRGB 9 9 9; mkRGB 9 9 9; mkRGB 9 9 9; mkRGB 9 9 9]] in
  Forall (fun p => is_Some (get_pixel image p.1 p.2)) (visited 1 3 1)
  /\ well_formed 2 4 (mandelbrot 1 3 4 1 image)
  /\ forall i j : Z, 0 <= i < 2 -> 0 <= j < 4 ->
       get_pixel (mandelbrot 1 3 4 1 image) i j
       = if decide (i < 1 /\ 1 <= j < 3) then Some (pixel i j 4 1)
         else get_pixel image i j.
Proof.
  intros image. apply (mandelbrot_writes_its_columns 2 4 1 3 4 1 image).
  - split; [reflexivity|]. repeat constructor.
  - lia.
  - lia.
  - lia.
Defined.

(** An image whose pixels all have the colour [px]. *)
Lemma well_formed_replicate (rows cols : Z) (px : RGB) :
  well_formed rows cols (replicate (Z.to_nat rows) (replicate (Z.to_nat cols) px)).
Proof.
  split; [apply length_replicate|].
  apply Forall_replicate. apply length_replicate.
Qed.

Lemma get_pixel_replicate (rows cols : Z) (px : RGB) (i j : Z) :
  0 <= i < rows -> 0 <= j < cols ->
  get_pixel (replicate (Z.to_nat rows) (replicate (Z.to_nat cols) px)) i j = Some px.
Proof.
  intros Hi Hj. unfold get_pixel.
  rewrite lookup_replicate_2 by lia. cbn.
  apply lookup_replicate_2. lia.
Qed.

(** Stores that cover the image render it, in whatever order. *)
Lemma write_all_rendered (w h : Z) (l : list (Z * Z)) (image : PPMImage) :
  well_formed h w image ->
  (forall i j : Z, (i, j) ∈ l <-> 0 <= i < h /\ 0 <= j < w) ->
  write_all w h l image = rendered w h.
Proof.
  intros Hwf Hl.
  apply (well_formed_ext h w);
    [apply well_formed_write_all, Hwf | apply well_formed_rendered |].
  intros i j Hi Hj. unfold write_all.
  rewrite fold_set_pixel;
    [ | | lia | lia | apply (well_formed_get_pixel h w); assumption ].
  - rewrite get_pixel_rendered by assumption.
    rewrite decide_True; [reflexivity|]. apply Hl. lia.
  - apply Forall_forall. intros [i' j'] Hin. apply Hl in Hin. cbn. lia.
Qed.

(** C10: with [width = 1600] and [threads = 4] the column ranges handed
    to the threads are [400 i, 400 (i + 1)) for [i = 0 .. 3]; their column
    lists put one after the other are exactly the columns [0 .. 1599],
    each once, so every column (and every pixel of the 1300 rows) belongs
    to the loops of exactly one thread, and no thread leaves [0, width).
    The call of [mandelbrot] a thread makes computes and stores the colour
    of every pixel of its own columns and stores nothing in the others; for
    every pixel of the image there is exactly one thread whose call stores
    into it; all the threads together make no store twice, and whatever
    the order of their stores the image ends fully rendered. *)
Theorem thread_columns_partition :
  thread_ranges width threads = [(0, 400); (400, 800); (800, 1200); (1200, 1600)]
  /\ concat (columns <$> thread_ranges width threads) = seqZ 0 width
  /\ NoDup (concat (columns <$> thread_ranges width threads))
  /\ (forall x : Z, 0 <= x < width ->
        exists! k : nat, exists rg : Z * Z,
          thread_ranges width threads !! k = Some rg /\ rg.1 <= x < rg.2)
  /\ (forall (k : nat) (rg : Z * Z) (x : Z),
        thread_ranges width threads !! k = Some rg ->
        rg.1 <= x < rg.2 -> 0 <= x < width)
  /\ (forall i j : Z, 0 <= i < height -> 0 <= j < width ->
        exists! k : nat, exists rg : Z * Z,
          thread_ranges width threads !! k = Some rg
          /\ (i, j) ∈ visited rg.1 rg.2 height)
  /\ (forall (image : PPMImage) (k : nat) (rg : Z * Z) (i j : Z),
        well_formed height width image ->
        thread_ranges width threads !! k = Some rg ->
        0 <= i < height -> 0 <= j < width ->
        get_pixel (mandelbrot rg.1 rg.2 width height image) i j
        = if decide (rg.1 <= j < rg.2) then Some (pixel i j width height)
          else get_pixel image i j)
  /\ (forall i j : Z, 0 <= i < height -> 0 <= j < width ->
        exists! k : nat, exists rg : Z * Z,
          thread_ranges width threads !! k = Some rg
          /\ forall image : PPMImage, well_formed height width image ->
               get_pixel (mandelbrot rg.1 rg.2 width height image) i j
               = Some (pixel i j width height))
  /\ NoDup (thread_writes width height threads)
  /\ (forall (image : PPMImage) (l : list (Z * Z)),
        well_formed height width image ->
        l ≡ₚ thread_writes width height threads ->
        write_all width height l image = rendered width height).
Proof.
  assert (Hcols : forall x : Z, 0 <= x < width ->
            exists! k : nat, exists rg : Z * Z,
              thread_ranges width threads !! k = Some rg /\ rg.1 <= x < rg.2).
  { intros x Hx. rewrite thread_ranges_eq. unfold width in Hx.
    assert (Hk : exists k : nat, (k < 4)%nat /\ 400 * Z.of_nat k <= x < 400 * (Z.of_nat k + 1)).
    { exists (Z.to_nat (x / 400)).
      pose proof (Z.div_mod x 400 ltac:(lia)) as Hdm.
      pose proof (Z.mod_pos_bound x 400 ltac:(lia)) as Hmb.
      assert (0 <= x / 400 < 4) by (split; [apply Z.div_pos; lia | apply Z.div_lt_upper_bound; lia]).
      rewrite Z2Nat.id by lia. split; lia. }
    destruct Hk as (k & Hk & Hx').
    exists k. split.
    - destruct k as [|[|[|[|k]]]]; cbn; [eexists; split; [reflexivity | cbn; lia] .. | lia].
    - intros k' (rg & Hrg & Hin).
      destruct k' as [|[|[|[|k']]]]; cbn in Hrg; try discriminate;
        injection Hrg as <-; cbn in Hin; lia. }
  assert (Hin_width : forall (k : nat) (rg : Z * Z),
            thread_ranges width threads !! k = Some rg ->
            0 <= rg.1 /\ rg.2 <= width).
  { intros k rg Hrg. rewrite thread_ranges_eq in Hrg. unfold width.
    destruct k as [|[|[|[|k]]]]; cbn in Hrg; try discriminate;
      injection Hrg as <-; cbn; lia. }
  assert (Hstore : forall (image : PPMImage) (k : nat) (rg : Z * Z) (i j : Z),
            well_formed height width image ->
            thread_ranges width threads !! k = Some rg ->
            0 <= i < height -> 0 <= j < width ->
            get_pixel (mandelbrot rg.1 rg.2 width height image) i j
            = if decide (rg.1 <= j < rg.2) then Some (pixel i j width height)
              else get_pixel image i j).
  { intros image k rg i j Hwf Hrg Hi Hj.
    destruct (Hin_width k rg Hrg) as [Hlo Hhi].
    rewrite (get_pixel_mandelbrot height width) by (assumption || lia).
    destruct (decide (i < height /\ rg.1 <= j < rg.2)) as [Hd|Hd];
      destruct (decide (rg.1 <= j < rg.2)) as [Hd'|Hd']; try reflexivity; lia. }
  split; [reflexivity|].
  split; [vm_compute; reflexivity|].
  split; [replace (concat _) with (seqZ 0 width) by (vm_compute; reflexivity);
          apply NoDup_seqZ|].
  split; [exact Hcols|].
  split; [intros k rg x Hrg Hx; destruct (Hin_width k rg Hrg); lia|].
  split.
  { intros i j Hi Hj. destruct (Hcols j Hj) as (k & (rg & Hrg & Hin) & Huniq).
    exists k. split.
    + exists rg. split; [exact Hrg|]. apply elem_of_visited. lia.
    + intros k' (rg' & Hrg' & Hin'). apply Huniq. exists rg'.
      split; [exact Hrg'|]. apply elem_of_visited in Hin'. lia. }
  split; [exact Hstore|].
  split.
  { intros i j Hi Hj. destruct (Hcols j Hj) as (k & (rg & Hrg & Hin) & Huniq).
    exists k. split.
    + exists rg. split; [exact Hrg|]. intros image Hwf.
      rewrite (Hstore image k rg i j Hwf Hrg Hi Hj).
      apply decide_True. exact Hin.
    + intros k' (rg' & Hrg' & Hall). apply Huniq. exists rg'.
      split; [exact Hrg'|].
      destruct (decide (rg'.1 <= j < rg'.2)) as [Hd|Hd]; [exact Hd|].
      exfalso.
      set (px := pixel i j width height) in *.
      set (other := mkRGB (r px + 1) 0 0).
      specialize (Hall _ (well_formed_replicate height width other)).
      rewrite (Hstore _ k' rg' i j (well_formed_replicate height width other)
                 Hrg' Hi Hj) in Hall.
      rewrite decide_False in Hall by exact Hd.
      rewrite get_pixel_replicate in Hall by assumption.
      injection Hall as Hpx. apply (f_equal r) in Hpx. cbn in Hpx. lia. }
  split.
  { unfold thread_writes. apply NoDup_bind.
    - intros rg1 rg2 [i j] Hrg1 Hrg2 Hin1 Hin2.
      apply elem_of_visited in Hin1, Hin2.
      apply list_elem_of_lookup in Hrg1 as [k1 Hk1].
      apply list_elem_of_lookup in Hrg2 as [k2 Hk2].
      assert (Hj : 0 <= j < width).
      { destruct (Hin_width k1 rg1 Hk1). lia. }
      destruct (Hcols j Hj) as (k & _ & Huniq).
      assert (k = k1) by (apply Huniq; exists rg1; split; [exact Hk1 | lia]).
      assert (k = k2) by (apply Huniq; exists rg2; split; [exact Hk2 | lia]).
      congruence.
    - intros rg _. apply NoDup_visited.
    - rewrite thread_ranges_eq. apply NoDup_ListNoDup.
      repeat (constructor; [cbn; intros Hin;
                            repeat (destruct Hin as [Hin|Hin]; [discriminate|]);
                            exact Hin|]).
      constructor. }
  intros image l Hwf Hperm. apply write_all_rendered; [exact Hwf|].
  intros i j. rewrite Hperm.
  rewrite elem_of_thread_writes by (unfold threads, width; lia).
  replace (width / threads * threads) with width by reflexivity.
  reflexivity.
Qed.

(** ** The file written *)








End WholeImage.

(* ===================================================================== *)
(** * Properties of the thread pool                                      *)
(* ===================================================================== *)

(** ** Case analysis of one step *)

Ltac step_cases H :=
  match type of H with
  | Pool.step ?e ?s = Some _ =>
      destruct s as [?ws ?q ?st ?m ?c ?prog ?sub ?deq ?exe ?sh];
      destruct e as [?ch|?w|?w]; cbn [Pool.step] in H;
      [ unfold Pool.main_step in H; cbn in H
      | unfold Pool.worker_step in H; cbn in H;
        match type of H with
        | context [ ?l !! ?i ] =>
            destruct (l !! i) as [[?p ?jn]|] eqn:?Hwk; cbn in H; [|discriminate]
        end
      | unfold Pool.spurious_step, Pool.is_blocked in H; cbn in H;
        match type of H with
        | context [ ?l !! ?i ] =>
            destruct (l !! i) as [[?p ?jn]|] eqn:?Hwk; cbn in H; [|discriminate]
        end ];
      repeat case_match; try discriminate;
      injection H as <-; cbn in *; subst
  end.

Section PoolFacts.
Import Pool.
Context {Job : Type}.
Implicit Types (s : state Job) (ws : list (worker Job)) (wk : worker Job).
Implicit Types (w k : nat) (t : tid) (e : event) (prog : list (call Job)).

(** ** Workers moved one at a time *)

Lemma lookup_set_pc ws w w' (p : wpc Job) :
  set_pc w p ws !! w'
  = if decide (w = w') then (fun wk => mkWorker p (joinable wk)) <$> ws !! w
    else ws !! w'.
Proof. unfold set_pc. apply list_lookup_alter. Qed.

Lemma lookup_set_joined ws k w' :
  set_joined k ws !! w'
  = if decide (k = w') then (fun wk => mkWorker (pc wk) false) <$> ws !! k
    else ws !! w'.
Proof. unfold set_joined. apply list_lookup_alter. Qed.

Lemma lookup_notify_all ws w : notify_all ws !! w = wake <$> ws !! w.
Proof. unfold notify_all. apply list_lookup_fmap. Qed.

Lemma elem_of_blocked_from ws : forall (i b : nat),
  b ∈ blocked_from i ws <->
  exists k wk, b = (i + k)%nat /\ ws !! k = Some wk /\ is_blocked wk = true.
Proof.
  induction ws as [|wk0 ws IH]; intros i b; cbn [blocked_from].
  - split; [intros H; inversion H | intros (k & wk & _ & H & _); discriminate].
  - rewrite elem_of_app, IH. split.
    + intros [Hb|(k & wk & -> & Hk & Hwk)].
      * destruct (is_blocked wk0) eqn:Hb0; [|inversion Hb].
        apply list_elem_of_singleton in Hb as ->.
        exists 0%nat, wk0. split; [lia | split; [reflexivity | exact Hb0]].
      * exists (S k), wk. split; [lia | split; [exact Hk | exact Hwk]].
    + intros (k & wk & -> & Hk & Hwk). destruct k as [|k].
      * cbn in Hk. injection Hk as ->. rewrite Hwk. left.
        apply list_elem_of_singleton. lia.
      * right. exists k, wk. split; [lia | split; [exact Hk | exact Hwk]].
Qed.

(** [notify_one] changes nothing when no worker sleeps, and otherwise
    wakes one worker that does. *)
Lemma notify_one_spec (c : nat) ws :
  (notify_one c ws = ws /\ forall w wk, ws !! w = Some wk -> is_blocked wk = false)
  \/ (exists w wk, ws !! w = Some wk /\ pc wk = WBlocked
                /\ notify_one c ws = set_pc w WWoken ws).
Proof.
  unfold notify_one. destruct (blocked_from 0 ws) as [|b bs] eqn:Hb.
  - left. split; [reflexivity|]. intros w wk Hw.
    destruct (is_blocked wk) eqn:Hwk; [|reflexivity].
    assert (Hin : w ∈ blocked_from 0 ws)
      by (apply elem_of_blocked_from; exists w, wk; auto).
    rewrite Hb in Hin. inversion Hin.
  - right.
    assert (Hin : nth (c mod length (b :: bs)) (b :: bs) b ∈ blocked_from 0 ws).
    { rewrite Hb. apply list_elem_of_In, nth_In.
      apply Nat.mod_upper_bound. cbn. lia. }
    apply elem_of_blocked_from in Hin as (k & wk & Hk & Hwk & Hbl).
    change (0 + k)%nat with k in Hk. rewrite Hk. exists k, wk. split; [exact Hwk|].
    split; [|reflexivity].
    unfold is_blocked in Hbl. destruct (pc wk); try discriminate. reflexivity.
Qed.

Lemma step_fifo e s s' :
  step e s = Some s' ->
  dequeued s ++ tasks s = submitted s ->
  dequeued s' ++ tasks s' = submitted s'.
Proof.
  intros Hstep Hinv. step_cases Hstep; try reflexivity.
  - apply app_assoc.
  - rewrite <- app_assoc. reflexivity.
Qed.

(** ** Mutual exclusion *)

Lemma wholds_set_pc ws w w' (p : wpc Job) wk :
  ws !! w = Some wk ->
  wholds (set_pc w p ws) w' = if decide (w = w') then wpc_holds p else wholds ws w'.
Proof.
  intros Hw. unfold wholds. rewrite lookup_set_pc.
  destruct (decide (w = w')); [rewrite Hw|]; reflexivity.
Qed.

Lemma wholds_set_joined ws k w' : wholds (set_joined k ws) w' = wholds ws w'.
Proof.
  unfold wholds. rewrite lookup_set_joined.
  destruct (decide (k = w')) as [->|]; [|reflexivity].
  destruct (ws !! w'); reflexivity.
Qed.

Lemma wpc_holds_wake wk : wpc_holds (pc (wake wk)) = wpc_holds (pc wk).
Proof. unfold wake, is_blocked. destruct (pc wk) eqn:E; cbn; rewrite ?E; reflexivity. Qed.

Lemma wholds_notify_all ws w' : wholds (notify_all ws) w' = wholds ws w'.
Proof.
  unfold wholds. rewrite lookup_notify_all.
  destruct (ws !! w'); cbn; [apply wpc_holds_wake | reflexivity].
Qed.

Lemma wholds_notify_one (c : nat) ws w' : wholds (notify_one c ws) w' = wholds ws w'.
Proof.
  destruct (notify_one_spec c ws) as [[-> _]|(w & wk & Hw & Hpc & ->)]; [reflexivity|].
  rewrite (wholds_set_pc _ _ _ _ _ Hw).
  destruct (decide (w = w')) as [<-|]; [|reflexivity].
  unfold wholds. rewrite Hw, Hpc. reflexivity.
Qed.

Lemma step_mutex e s s' :
  step e s = Some s' -> mutex_ok s -> mutex_ok s'.
Proof.
  unfold mutex_ok. intros Hstep Hinv.
  step_cases Hstep; intros t; pose proof (Hinv t) as Ht;
    pose proof (Hinv Main) as Hm;
    try (pose proof (Hinv (Wk w)) as Hw; cbn in Hw; unfold wholds in Hw;
         rewrite Hwk in Hw);
    destruct t as [|w']; cbn in *;
    rewrite ?wholds_notify_one, ?wholds_notify_all, ?wholds_set_joined;
    erewrite ?wholds_set_pc by eassumption;
    repeat case_decide; repeat case_bool_decide; simplify_eq;
    try reflexivity; try congruence.
Qed.

(** No two threads are inside the critical section at once. *)
Lemma mutex_exclusive s t t' :
  mutex_ok s -> holds s t = true -> holds s t' = true -> t = t'.
Proof.
  intros Hinv Ht Ht'. rewrite Hinv in Ht, Ht'.
  apply bool_decide_eq_true in Ht, Ht'. congruence.
Qed.

(** The queue changes only in steps of the thread that owns the mutex. *)
Lemma queue_changes_under_lock e s s' :
  mutex_ok s -> step e s = Some s' -> tasks s' <> tasks s ->
  queue_mutex s = Some (thread_of e).
Proof.
  unfold mutex_ok. intros Hmx Hstep Hne.
  step_cases Hstep; try (exfalso; apply Hne; reflexivity).
  - specialize (Hmx Main). cbn in Hmx. symmetry in Hmx.
    apply bool_decide_eq_true in Hmx. exact Hmx.
  - specialize (Hmx (Wk w)). cbn in Hmx. unfold wholds in Hmx.
    rewrite Hwk in Hmx. cbn in Hmx. symmetry in Hmx.
    apply bool_decide_eq_true in Hmx. exact Hmx.
Qed.

(** ** Jobs popped and not yet called *)

Lemma in_flight_set_pc ws : forall w wk (p : wpc Job),
  ws !! w = Some wk ->
  option_list (job_of (pc wk)) ++ in_flight (set_pc w p ws)
  ≡ₚ option_list (job_of p) ++ in_flight ws.
Proof.
  unfold set_pc.
  induction ws as [|wk0 ws IH]; intros w wk p Hw; [discriminate|].
  destruct w as [|w]; cbn in Hw.
  - injection Hw as ->. unfold in_flight. cbn.
    destruct (job_of (pc wk)), (job_of p); cbn; try reflexivity.
    apply perm_swap.
  - specialize (IH w wk p Hw). unfold in_flight in *. cbn.
    destruct (job_of (pc wk0)) as [j0|]; cbn; [|exact IH].
    rewrite <- !Permutation_middle. f_equiv. exact IH.
Qed.

Lemma in_flight_same (f : worker Job -> worker Job) ws :
  (forall wk, job_of (pc (f wk)) = job_of (pc wk)) ->
  forall k, in_flight (alter f k ws) = in_flight ws.
Proof.
  intros Hf. unfold in_flight.
  induction ws as [|wk0 ws IH]; intros k; [reflexivity|].
  destruct k as [|k]; cbn.
  - rewrite Hf. reflexivity.
  - rewrite (IH k). reflexivity.
Qed.

Lemma in_flight_set_joined ws k : in_flight (set_joined k ws) = in_flight ws.
Proof. unfold set_joined. apply in_flight_same. reflexivity. Qed.

Lemma job_of_wake wk : job_of (pc (wake wk)) = job_of (pc wk).
Proof. unfold wake, is_blocked. destruct (pc wk) eqn:E; cbn; rewrite ?E; reflexivity. Qed.

Lemma in_flight_notify_all ws : in_flight (notify_all ws) = in_flight ws.
Proof.
  unfold notify_all, in_flight.
  induction ws as [|wk0 ws IH]; [reflexivity|].
  cbn. rewrite job_of_wake, IH. reflexivity.
Qed.

Lemma in_flight_set_pc_same ws : forall w wk (p : wpc Job),
  ws !! w = Some wk -> job_of p = job_of (pc wk) ->
  in_flight (set_pc w p ws) = in_flight ws.
Proof.
  unfold set_pc, in_flight.
  induction ws as [|wk0 ws IH]; intros w wk p Hw Hp; [reflexivity|].
  destruct w as [|w]; cbn in *.
  - injection Hw as ->. rewrite Hp. reflexivity.
  - rewrite (IH w wk p Hw Hp). reflexivity.
Qed.

Lemma in_flight_notify_one (c : nat) ws : in_flight (notify_one c ws) = in_flight ws.
Proof.
  destruct (notify_one_spec c ws) as [[-> _]|(w & wk & Hw & Hpc & ->)]; [reflexivity|].
  apply (in_flight_set_pc_same ws w wk); [exact Hw|]. rewrite Hpc. reflexivity.
Qed.

Lemma step_exec e s s' :
  step e s = Some s' -> exec_ok s -> exec_ok s'.
Proof.
  unfold exec_ok. intros Hstep Hinv.
  step_cases Hstep;
    rewrite ?in_flight_notify_one, ?in_flight_notify_all, ?in_flight_set_joined;
    try exact Hinv;
    try match goal with
    | Hwk : _ !! _ = Some _ |- context [ set_pc ?w ?p ?ws ] =>
        pose proof (in_flight_set_pc ws w _ p Hwk) as Hfl; cbn in Hfl
    end;
    try (rewrite Hfl; exact Hinv).
  - rewrite Hfl, <- Hinv, <- Permutation_middle.
    apply Permutation_cons_append.
  - apply Permutation_cons_inv in Hfl. rewrite Hfl. exact Hinv.
  - rewrite <- Hinv, <- Hfl, <- app_assoc. reflexivity.
Qed.

(** ** What a step can do to one worker *)

Lemma lookup_set_pc_inv ws w w' (p : wpc Job) wk' :
  set_pc w p ws !! w' = Some wk' ->
  (w = w' /\ pc wk' = p /\ exists wk, ws !! w = Some wk /\ joinable wk' = joinable wk)
  \/ (w <> w' /\ ws !! w' = Some wk').
Proof.
  rewrite lookup_set_pc. destruct (decide (w = w')) as [<-|Hne].
  - destruct (ws !! w) as [wk|] eqn:Hw; cbn; [|discriminate].
    intros [= <-]. left. cbn. eauto.
  - intros H. right. auto.
Qed.

Lemma lookup_set_joined_inv ws k w wk' :
  set_joined k ws !! w = Some wk' ->
  exists wk, ws !! w = Some wk /\ pc wk' = pc wk
             /\ ((w <> k /\ wk' = wk) \/ (w = k /\ joinable wk' = false)).
Proof.
  rewrite lookup_set_joined. destruct (decide (k = w)) as [<-|Hne].
  - destruct (ws !! k) as [wk|] eqn:Hw; cbn; [|discriminate].
    intros [= <-]. exists wk. cbn. auto.
  - intros H. exists wk'. auto.
Qed.

Lemma lookup_notify_all_inv ws w wk' :
  notify_all ws !! w = Some wk' ->
  exists wk, ws !! w = Some wk /\ joinable wk' = joinable wk
             /\ (pc wk' = pc wk \/ (pc wk = WBlocked /\ pc wk' = WWoken)).
Proof.
  rewrite lookup_notify_all. destruct (ws !! w) as [wk|]; cbn; [|discriminate].
  intros [= <-]. exists wk. split; [reflexivity|].
  unfold wake, is_blocked. destruct (pc wk) eqn:E; cbn; rewrite ?E; auto.
Qed.

Lemma lookup_notify_one_inv (c : nat) ws w wk' :
  notify_one c ws !! w = Some wk' ->
  exists wk, ws !! w = Some wk /\ joinable wk' = joinable wk
             /\ (pc wk' = pc wk \/ (pc wk = WBlocked /\ pc wk' = WWoken)).
Proof.
  destruct (notify_one_spec c ws) as [[-> _]|(w0 & wk0 & Hw0 & Hpc & ->)].
  - intros H. exists wk'. auto.
  - intros H. apply lookup_set_pc_inv in H as [(<- & Hp & wk & Hw & Hj)|[Hne H]].
    + exists wk. rewrite Hw in Hw0. injection Hw0 as ->. auto.
    + exists wk'. auto.
Qed.

(** ** [front] is never called on an empty queue *)

Lemma step_front e s s' :
  step e s = Some s' -> mutex_ok s -> front_ok s -> front_ok s'.
Proof.
  unfold front_ok. intros Hstep Hmx Hinv.
  assert (Hex : forall w1 w2 wk1 wk2,
             workers s !! w1 = Some wk1 -> workers s !! w2 = Some wk2 ->
             wpc_holds (pc wk1) = true -> wpc_holds (pc wk2) = true -> w1 = w2).
  { intros w1 w2 wk1 wk2 H1 H2 Hh1 Hh2.
    assert (Wk w1 = Wk w2) as [= ->]; [|reflexivity].
    apply (mutex_exclusive s); [exact Hmx | |]; cbn; unfold wholds.
    - rewrite H1. exact Hh1.
    - rewrite H2. exact Hh2. }
  assert (Hmain : mpc_holds (caller s) = true ->
             forall w wk, workers s !! w = Some wk -> wpc_holds (pc wk) = false).
  { intros Hm w wk Hw. destruct (wpc_holds (pc wk)) eqn:Hh; [|reflexivity].
    assert (Main = Wk w) as [=].
    apply (mutex_exclusive s); [exact Hmx | exact Hm |]. cbn. unfold wholds.
    rewrite Hw. exact Hh. }
  step_cases Hstep; intros w' wk' Hlk;
    try (apply lookup_notify_one_inv in Hlk as (wk0 & Hlk & _ & Hpc));
    try (apply lookup_notify_all_inv in Hlk as (wk0 & Hlk & _ & Hpc));
    try (apply lookup_set_joined_inv in Hlk as (wk0 & Hlk & Hpc & _));
    try (apply lookup_set_pc_inv in Hlk as [(<- & Hpc & wk0 & Hlk & _)|[Hne Hlk]]);
    try (pose proof (Hinv _ _ Hlk) as [Hi1 Hi2]; cbn in Hi1, Hi2);
    (split; intros Hp);
    try (destruct Hpc as [Hpc|[Hpc1 Hpc2]]; [rewrite Hpc in Hp | congruence]);
    try (rewrite Hpc in Hp);
    try congruence;
    try (right; reflexivity);
    try (apply Hi1; exact Hp); try (apply Hi2; exact Hp);
    try (destruct q; discriminate);
    try (rewrite Hwk in Hlk; injection Hlk as <-; cbn in Hi1, Hi2);
    try (exfalso; apply Hne;
         apply (Hex _ _ _ _ Hwk Hlk); [reflexivity | rewrite Hp; reflexivity]).
  - left. destruct q; discriminate.
  - match goal with
    | H : wait_pred _ = true |- _ =>
        unfold wait_pred in H; cbn in H; apply orb_true_iff in H as [Hq|Hs]
    end.
    + left. apply negb_true_iff, bool_decide_eq_false in Hq. exact Hq.
    + right. exact Hs.
  - destruct Hi2 as [Hq|Hst]; [reflexivity | exact Hq | discriminate].
Qed.

(** ** Handles and the destructor *)

Lemma step_joined e s s' :
  step e s = Some s' -> joined_ok s -> joined_ok s'.
Proof.
  unfold joined_ok. intros Hstep Hinv.
  step_cases Hstep; intros w' wk' Hlk Hj;
    try (apply lookup_notify_one_inv in Hlk as (wk0 & Hlk & Hjn & Hpc));
    try (apply lookup_notify_all_inv in Hlk as (wk0 & Hlk & Hjn & Hpc));
    try (apply lookup_set_joined_inv in Hlk as (wk0 & Hlk & Hpc & Hjn));
    try (apply lookup_set_pc_inv in Hlk as [(<- & Hpc & wk0 & Hlk & Hjn)|[Hne Hlk]]);
    try (apply (Hinv _ _ Hlk Hj));
    try (rewrite Hwk in Hlk; injection Hlk as <-; cbn in Hjn;
         rewrite Hjn in Hj; specialize (Hinv _ _ Hwk Hj); discriminate);
    try (destruct Hpc as [Hpc|[Hpc1 Hpc2]];
         [ rewrite Hpc; apply (Hinv _ _ Hlk); congruence
         | rewrite Hjn in Hj; specialize (Hinv _ _ Hlk Hj); congruence ]).
  rewrite Hpc. destruct Hjn as [[_ ->]|[-> _]].
  - apply (Hinv _ _ Hlk). exact Hj.
  - congruence.
Qed.

Lemma step_dtor e s s' :
  step e s = Some s' -> dtor_ok s -> dtor_ok s'.
Proof.
  unfold dtor_ok. intros Hstep [Hinv1 Hinv2].
  step_cases Hstep; (split; [intros k' [=] i wk' Hi Hlk | intros Hsh i wk' Hlk]);
    subst;
    try (apply lookup_notify_one_inv in Hlk as (wk0 & Hlk & Hjn & Hpc));
    try (apply lookup_notify_all_inv in Hlk as (wk0 & Hlk & Hjn & Hpc));
    try (apply lookup_set_joined_inv in Hlk as (wk0 & Hlk & Hpc & Hjn));
    try (apply lookup_set_pc_inv in Hlk as [(<- & Hpc & wk0 & Hlk & Hjn)|[Hne Hlk]]);
    try lia;
    try (apply (Hinv2 Hsh _ _ Hlk));
    try (rewrite Hjn; apply (Hinv2 Hsh _ _ Hlk));
    try (apply (Hinv1 _ eq_refl _ _ Hi Hlk));
    try (rewrite Hjn; apply (Hinv1 _ eq_refl _ _ Hi Hlk)).
  - destruct Hjn as [[Hne ->]|[_ Hjn]]; [|exact Hjn].
    apply (Hinv1 _ eq_refl i); [lia | exact Hlk].
  - destruct Hjn as [[Hne ->]|[_ Hjn]]; [|exact Hjn].
    apply (Hinv2 Hsh _ _ Hlk).
  - match goal with
    | Hnone : _ !! ?k = None |- _ =>
        apply lookup_ge_None in Hnone; apply lookup_lt_Some in Hlk as Hlt;
        apply (Hinv1 k eq_refl i); [lia | exact Hlk]
    end.
Qed.

Lemma step_stop e s s' :
  step e s = Some s' -> stop_ok s -> stop_ok s'.
Proof.
  unfold stop_ok. intros Hstep Hinv.
  step_cases Hstep; intros [Hd|Hsh];
    try reflexivity; try discriminate;
    try (apply Hinv; right; exact Hsh);
    try (apply Hinv; left; reflexivity);
    try (apply Hinv; left; exact Hd).
Qed.

(** [stop] is never reset. *)
Lemma step_stop_mono e s s' :
  step e s = Some s' -> stop s = true -> stop s' = true.
Proof.
  intros Hstep Hst. step_cases Hstep; reflexivity.
Qed.

Lemma step_prog prog e s s' :
  step e s = Some s' -> prog_ok prog s -> prog_ok prog s'.
Proof.
  unfold prog_ok. intros Hstep Hinv.
  step_cases Hstep; try exact Hinv.
  - rewrite <- app_assoc. exact Hinv.
  - cbn in Hinv. rewrite app_nil_r.
    etrans; [|exact Hinv]. apply prefix_app_r. reflexivity.
Qed.

(** The Jobs pushed are the first Jobs of the caller's program. *)
Lemma submitted_prefix prog s :
  prog_ok prog s -> submitted s `prefix_of` jobs_of prog.
Proof.
  unfold prog_ok. intros Hinv.
  etrans; [|exact Hinv]. apply prefix_app_r. reflexivity.
Qed.

Lemma length_notify_one (c : nat) ws : length (notify_one c ws) = length ws.
Proof.
  destruct (notify_one_spec c ws) as [[-> _]|(w & wk & _ & _ & ->)]; [reflexivity|].
  apply length_alter.
Qed.

(** The vector [workers] keeps its size. *)
Lemma step_size e s s' :
  step e s = Some s' -> length (workers s') = length (workers s).
Proof.
  intros Hstep.
  step_cases Hstep; try reflexivity;
    first [ apply length_notify_one | apply length_fmap | apply length_alter ].
Qed.

(** ** The invariant of the pool *)

Lemma Inv_start (threads : Z) prog : Inv prog (start threads prog).
Proof.
  split; unfold start, ThreadPool_init; cbn.
  - intros [|w]; cbn; [reflexivity|]. unfold wholds.
    destruct (replicate _ _ !! w) as [wk|] eqn:Hw; [|reflexivity].
    apply lookup_replicate in Hw as [-> _]. reflexivity.
  - reflexivity.
  - unfold exec_ok. cbn.
    induction (Z.to_nat (size_t_of_int threads)) as [|n IH]; [reflexivity | exact IH].
  - intros w wk Hw. cbn in Hw. apply lookup_replicate in Hw as [-> _].
    split; discriminate.
  - intros w wk Hw. cbn in Hw. apply lookup_replicate in Hw as [-> _]. discriminate.
  - split; cbn; [discriminate | lia].
  - intros [Hd|Hsh]; cbn in *; [discriminate | lia].
  - unfold prog_ok. cbn. reflexivity.
Qed.

Lemma Inv_step prog e s s' :
  step e s = Some s' -> Inv prog s -> Inv prog s'.
Proof.
  intros Hstep [H1 H2 H3 H4 H5 H6 H7 H8]. split.
  - exact (step_mutex _ _ _ Hstep H1).
  - exact (step_fifo _ _ _ Hstep H2).
  - exact (step_exec _ _ _ Hstep H3).
  - exact (step_front _ _ _ Hstep H1 H4).
  - exact (step_joined _ _ _ Hstep H5).
  - exact (step_dtor _ _ _ Hstep H6).
  - exact (step_stop _ _ _ Hstep H7).
  - exact (step_prog _ _ _ _ Hstep H8).
Qed.

Lemma Inv_run prog sched : forall s s',
  run sched s = Some s' -> Inv prog s -> Inv prog s'.
Proof.
  induction sched as [|e sched IH]; intros s s' Hrun Hinv; cbn in Hrun.
  - injection Hrun as <-. exact Hinv.
  - destruct (step e s) as [s1|] eqn:Hstep; cbn in Hrun; [|discriminate].
    apply (IH s1 s' Hrun). exact (Inv_step _ _ _ _ Hstep Hinv).
Qed.

Lemma reachable_Inv (threads : Z) prog s :
  reachable threads prog s -> Inv prog s.
Proof.
  intros [sched Hrun]. exact (Inv_run _ _ _ _ Hrun (Inv_start threads prog)).
Qed.

Lemma run_app sched1 sched2 : forall s,
  run (sched1 ++ sched2) s = s1 ← run sched1 s; run sched2 s1.
Proof.
  induction sched1 as [|e sched1 IH]; intros s; cbn; [reflexivity|].
  destruct (step e s) as [s1|]; cbn; [apply IH | reflexivity].
Qed.

Lemma run_size sched : forall s s',
  run sched s = Some s' -> length (workers s') = length (workers s).
Proof.
  induction sched as [|e sched IH]; intros s s' Hrun; cbn in Hrun.
  - injection Hrun as <-. reflexivity.
  - destruct (step e s) as [s1|] eqn:Hstep; cbn in Hrun; [|discriminate].
    rewrite (IH _ _ Hrun). exact (step_size _ _ _ Hstep).
Qed.

End PoolFacts.

(* ===================================================================== *)
(** * Construction                                                       *)
(* ===================================================================== *)

Section Construction.
Import Pool.
Context {Job : Type}.

(** C3 as stated fails: a worker count of 0 does not make the
    constructor fail.  It returns a pool with an empty [workers] vector;
    nor does a negative [int], which the [size_t] parameter receives as a
    large positive count. *)
Lemma ThreadPool_ctor_zero_counterexample :
  ThreadPool_ctor (Job := nat) 0
  = Returned (mkState [] [] false None MIdle [] [] [] [] 0)
  /\ ThreadPool_ctor (Job := nat) 0 <> Thrown InvalidConfiguration
  /\ ThreadPool_ctor (Job := nat) (-1) <> Thrown InvalidConfiguration
  /\ ~ (forall threads : Z, threads < 1 ->
          ThreadPool_ctor (Job := nat) threads = Thrown InvalidConfiguration).
Proof.
  split; [reflexivity|]. split; [discriminate|]. split; [discriminate|].
  intros H. specialize (H 0 ltac:(lia)). discriminate.
Qed.

(** C3, amended: for every worker count that a [size_t] holds, 0
    included, the constructor returns: the pool has exactly that many
    workers, each a joinable thread at the top of its loop, an empty
    queue, a free mutex and [stop = false].  No count is rejected. *)
Theorem ThreadPool_ctor_starts_workers (threads : Z) :
  0 <= threads < 18446744073709551616 ->
  exists p : state Job,
    ThreadPool_ctor threads = Returned p
    /\ length (workers p) = Z.to_nat threads
    /\ Forall (fun wk => pc wk = WLock /\ joinable wk = true) (workers p)
    /\ stop p = false /\ tasks p = [] /\ queue_mutex p = None
    /\ caller p = MIdle /\ shutdowns p = 0%nat.
Proof.
  intros Hrange. exists (ThreadPool_init threads).
  split; [reflexivity|]. unfold ThreadPool_init, size_t_of_int. cbn.
  rewrite Z.mod_small by exact Hrange.
  split; [apply length_replicate|].
  split; [|repeat split].
  apply Forall_forall. intros wk Hin. apply elem_of_replicate in Hin as [-> _].
  split; reflexivity.
Qed.

End Construction.

Lemma ThreadPool_ctor_starts_workers_witness :
  exists p : Pool.state nat,
    Pool.ThreadPool_ctor 4 = Pool.Returned p
    /\ length (Pool.workers p) = Z.to_nat 4
    /\ Forall (fun wk => Pool.pc wk = Pool.WLock /\ Pool.joinable wk = true)
              (Pool.workers p)
    /\ Pool.stop p = false /\ Pool.tasks p = [] /\ Pool.queue_mutex p = None
    /\ Pool.caller p = Pool.MIdle /\ Pool.shutdowns p = 0%nat.
Proof.
  apply (ThreadPool_ctor_starts_workers (Job := nat) 4). lia.
Defined.

(* ===================================================================== *)
(** * The worker's critical section                                      *)
(* ===================================================================== *)

Section Dequeue.
Import Pool.
Context {Job : Type}.
Implicit Types (s : state Job) (ws : list (worker Job)) (wk : worker Job).

Lemma lookup_set_pc_eq ws w wk (p : wpc Job) :
  ws !! w = Some wk -> set_pc w p ws !! w = Some (mkWorker p (joinable wk)).
Proof.
  intros Hw. rewrite lookup_set_pc, decide_True by reflexivity.
  rewrite Hw. reflexivity.
Qed.

(** [dequeue_blocking] decides by the flag first. *)
Lemma dequeue_blocking_cases (q : list Job) (stopped : bool) :
  dequeue_blocking q stopped
  = if stopped then (NoJobStop, q)
    else match q with
         | task :: q' => (GotJob task, q')
         | [] => (Suspended, [])
         end.
Proof.
  unfold dequeue_blocking. destruct stopped, q; cbn; reflexivity.
Qed.

(** When no other thread runs in between, lines 44 to 48 do what
    [dequeue_blocking] computes from the queue and the flag: the stop
    signal when [stop] is true, whatever the queue holds; the front Job
    when [stop] is false and the queue is non-empty; sleep otherwise. *)
Lemma worker_dequeue_uninterrupted s (w : nat) wk :
  workers s !! w = Some wk -> pc wk = WWait ->
  match dequeue_blocking (tasks s) (stop s) with
  | (NoJobStop, q) =>
      stop s = true /\ q = tasks s
      /\ exists s', run [EvWorker w; EvWorker w] s = Some s'
           /\ pc <$> workers s' !! w = Some WExited
           /\ tasks s' = tasks s /\ dequeued s' = dequeued s
           /\ executed s' = executed s /\ queue_mutex s' = None
  | (GotJob task, q) =>
      stop s = false /\ tasks s = task :: q
      /\ exists s', run [EvWorker w; EvWorker w; EvWorker w; EvWorker w] s = Some s'
           /\ pc <$> workers s' !! w = Some (WCall task)
           /\ tasks s' = q /\ dequeued s' = dequeued s ++ [task]
           /\ queue_mutex s' = None
  | (Suspended, q) =>
      stop s = false /\ tasks s = [] /\ q = []
      /\ exists s', run [EvWorker w; EvWorker w] s = Some s'
           /\ pc <$> workers s' !! w = Some WBlocked
           /\ tasks s' = [] /\ queue_mutex s' = None
  end.
Proof.
  intros Hw Hpc. rewrite dequeue_blocking_cases.
  destruct s as [ws q st m c prog sub deq exe sh], wk as [p jn].
  cbn in *. subst p.
  destruct st; [|destruct q as [|task q]].
  - split; [reflexivity|]. split; [reflexivity|].
    eexists. cbn. unfold worker_step. cbn. rewrite Hw. cbn.
    unfold wait_pred. cbn. rewrite orb_true_r. cbn.
    unfold worker_step. cbn. rewrite (lookup_set_pc_eq _ _ _ _ Hw). cbn.
    split; [reflexivity|]. cbn.
    erewrite lookup_set_pc_eq by (apply (lookup_set_pc_eq _ _ _ _ Hw)).
    repeat split.
  - split; [reflexivity|]. split; [reflexivity|]. split; [reflexivity|].
    eexists. cbn. unfold worker_step. cbn. rewrite Hw. cbn.
    unfold worker_step. cbn. rewrite (lookup_set_pc_eq _ _ _ _ Hw). cbn.
    split; [reflexivity|]. cbn.
    erewrite lookup_set_pc_eq by (apply (lookup_set_pc_eq _ _ _ _ Hw)).
    repeat split.
  - split; [reflexivity|]. split; [reflexivity|].
    eexists. cbn. unfold worker_step. cbn. rewrite Hw. cbn.
    unfold worker_step. cbn. rewrite (lookup_set_pc_eq _ _ _ _ Hw). cbn.
    unfold worker_step. cbn.
    erewrite lookup_set_pc_eq by (apply (lookup_set_pc_eq _ _ _ _ Hw)). cbn.
    unfold worker_step. cbn.
    erewrite lookup_set_pc_eq
      by (eapply lookup_set_pc_eq, lookup_set_pc_eq, Hw). cbn.
    split; [reflexivity|]. cbn.
    erewrite lookup_set_pc_eq
      by (eapply lookup_set_pc_eq, lookup_set_pc_eq, lookup_set_pc_eq, Hw).
    repeat split.
Qed.

End Dequeue.

(* ===================================================================== *)
(** * The stop check under every schedule                                *)
(* ===================================================================== *)

Section StopCheck.
Import Pool.
Context {Job : Type}.
Implicit Types (s : state Job) (ws : list (worker Job)) (wk : worker Job).
Implicit Types (w k : nat) (t : tid) (e : event) (prog : list (call Job)).

Lemma step_exit e s s' :
  step e s = Some s' -> exit_ok s -> exit_ok s'.
Proof.
  unfold exit_ok. intros Hstep Hinv.
  step_cases Hstep; intros w' wk' Hlk Hp;
    try (apply lookup_notify_one_inv in Hlk as (wk0 & Hlk & _ & Hpc));
    try (apply lookup_notify_all_inv in Hlk as (wk0 & Hlk & _ & Hpc));
    try (apply lookup_set_joined_inv in Hlk as (wk0 & Hlk & Hpc & _));
    try (apply lookup_set_pc_inv in Hlk as [(<- & Hpc & wk0 & Hlk & _)|[Hne Hlk]]);
    try reflexivity;
    try (apply (Hinv _ _ Hlk Hp));
    try congruence;
    try (destruct Hpc as [Hpc|[_ Hpc]]; [|congruence]);
    apply (Hinv _ _ Hlk); congruence.
Qed.

Lemma run_exit sched : forall s s',
  run sched s = Some s' -> exit_ok s -> exit_ok s'.
Proof.
  induction sched as [|e sched IH]; intros s s' Hrun Hinv; cbn in Hrun.
  - injection Hrun as <-. exact Hinv.
  - destruct (step e s) as [s1|] eqn:Hstep; cbn in Hrun; [|discriminate].
    apply (IH s1 s' Hrun). exact (step_exit _ _ _ Hstep Hinv).
Qed.

(** With [stop] set, no step takes a worker past the stop check: a
    worker that has a Job to take or in hand had one before the step. *)
Lemma step_committed e s s' :
  step e s = Some s' -> stop s = true ->
  forall w wk', workers s' !! w = Some wk' -> committed (pc wk') = true ->
    exists wk, workers s !! w = Some wk /\ committed (pc wk) = true.
Proof.
  intros Hstep Hstop.
  step_cases Hstep; intros w' wk' Hlk Hc;
    try (apply lookup_notify_one_inv in Hlk as (wk0 & Hlk & _ & Hpc));
    try (apply lookup_notify_all_inv in Hlk as (wk0 & Hlk & _ & Hpc));
    try (apply lookup_set_joined_inv in Hlk as (wk0 & Hlk & Hpc & _));
    try (apply lookup_set_pc_inv in Hlk as [(<- & Hpc & wk0 & Hlk & _)|[Hne Hlk]]);
    try discriminate;
    try (exists wk'; split; [exact Hlk | exact Hc]);
    try (rewrite Hpc in Hc; discriminate);
    try (exists wk0; split; [exact Hlk|];
         first [ rewrite <- Hpc; exact Hc
               | destruct Hpc as [Hpc|[_ Hpc]];
                 [rewrite <- Hpc; exact Hc | rewrite Hpc in Hc; discriminate] ]);
    try (rewrite Hwk in Hlk; injection Hlk as <-;
         eexists; split; [exact Hwk | reflexivity]).
Qed.

(** With [stop] set and no worker between the check and [pop_front],
    a step pops nothing, and no worker gets there. *)
Lemma step_no_front e s s' :
  step e s = Some s' -> stop s = true -> no_front s ->
  dequeued s' = dequeued s /\ tasks s `prefix_of` tasks s' /\ no_front s'.
Proof.
  unfold no_front. intros Hstep Hstop Hnf.
  step_cases Hstep;
    try (exfalso; apply (Hnf _ _ Hwk); reflexivity);
    (split; [reflexivity|]);
    (split; [first [reflexivity | apply prefix_app_r; reflexivity]|]);
    intros w' wk' Hlk Hp;
    try (apply lookup_notify_one_inv in Hlk as (wk0 & Hlk & _ & Hpc));
    try (apply lookup_notify_all_inv in Hlk as (wk0 & Hlk & _ & Hpc));
    try (apply lookup_set_joined_inv in Hlk as (wk0 & Hlk & Hpc & _));
    try (apply lookup_set_pc_inv in Hlk as [(<- & Hpc & wk0 & Hlk & _)|[Hne Hlk]]);
    try discriminate;
    try (apply (Hnf _ _ Hlk Hp));
    try congruence;
    try (destruct Hpc as [Hpc|[_ Hpc]]; [|congruence]);
    apply (Hnf _ _ Hlk); congruence.
Qed.

Lemma run_stopped sched : forall s s',
  run sched s = Some s' -> stop s = true ->
  stop s' = true
  /\ (forall w wk', workers s' !! w = Some wk' -> committed (pc wk') = true ->
        exists wk, workers s !! w = Some wk /\ committed (pc wk) = true)
  /\ (no_front s ->
        dequeued s' = dequeued s /\ tasks s `prefix_of` tasks s' /\ no_front s').
Proof.
  induction sched as [|e sched IH]; intros s s' Hrun Hstop; cbn in Hrun.
  - injection Hrun as <-. split; [exact Hstop|]. split; [eauto|].
    intros Hnf. split; [reflexivity|]. split; [reflexivity | exact Hnf].
  - destruct (step e s) as [s1|] eqn:Hstep; cbn in Hrun; [|discriminate].
    pose proof (step_stop_mono _ _ _ Hstep Hstop) as Hstop1.
    destruct (IH _ _ Hrun Hstop1) as (Hstop' & Hc & Hq).
    split; [exact Hstop'|]. split.
    + intros w wk' Hlk Hcm. destruct (Hc w wk' Hlk Hcm) as (wk1 & Hlk1 & Hcm1).
      exact (step_committed _ _ _ Hstep Hstop w wk1 Hlk1 Hcm1).
    + intros Hnf.
      destruct (step_no_front _ _ _ Hstep Hstop Hnf) as (Hd1 & Hp1 & Hnf1).
      destruct (Hq Hnf1) as (Hd' & Hp' & Hnf').
      split; [congruence|]. split; [etrans; eassumption | exact Hnf'].
Qed.

(** C1, amended: a worker decides at the stop check of line 45, by the
    value of [stop] it reads there.  If [stop] is true it returns the stop
    signal, whether or not the queue is empty, and leaves the queue as it
    is; if [stop] is false the queue is non-empty, and its next line
    removes the front Job, whatever happens to [stop] in between.  A worker
    has returned only if [stop] is set.  And under every schedule: once
    [stop] is set it stays set, no worker that has not passed the check
    takes a Job any more, and if no worker stands between the check and
    [pop_front] the Jobs in the queue are never dequeued. *)
Theorem worker_stop_check_decides (threads : Z) prog (sched : list event) s :
  run sched (start threads prog) = Some s ->
  (forall w wk, workers s !! w = Some wk -> pc wk = WCheckStop ->
     exists s', step (EvWorker w) s = Some s'
       /\ tasks s' = tasks s /\ dequeued s' = dequeued s
       /\ if stop s
          then pc <$> workers s' !! w = Some WExited /\ queue_mutex s' = None
          else pc <$> workers s' !! w = Some WFront /\ tasks s <> [])
  /\ (forall w wk, workers s !! w = Some wk -> pc wk = WFront ->
        exists (task : Job) (q : list Job) s',
          tasks s = task :: q /\ step (EvWorker w) s = Some s'
          /\ tasks s' = q /\ dequeued s' = dequeued s ++ [task]
          /\ pc <$> workers s' !! w = Some (WUnlock task))
  /\ (forall w wk, workers s !! w = Some wk -> pc wk = WExited -> stop s = true)
  /\ (stop s = true ->
      forall (sched' : list event) s', run sched' s = Some s' ->
        stop s' = true
        /\ (forall w wk', workers s' !! w = Some wk' -> committed (pc wk') = true ->
              exists wk, workers s !! w = Some wk /\ committed (pc wk) = true)
        /\ (no_front s ->
              dequeued s' = dequeued s /\ tasks s `prefix_of` tasks s')).
Proof.
  intros Hrun.
  pose proof (reachable_Inv threads prog s (ex_intro _ sched Hrun)) as Hinv.
  pose proof (inv_front _ _ Hinv) as Hfront.
  split; [|split; [|split]].
  - intros w wk Hw Hpc. destruct (Hfront w wk Hw) as [_ Hcheck].
    specialize (Hcheck Hpc).
    unfold step, worker_step. rewrite Hw. cbn. rewrite Hpc.
    destruct (stop s) eqn:Hstop.
    + eexists. split; [reflexivity|]. cbn.
      rewrite (lookup_set_pc_eq _ _ _ _ Hw). repeat split.
    + eexists. split; [reflexivity|]. cbn.
      rewrite (lookup_set_pc_eq _ _ _ _ Hw).
      split; [reflexivity|]. split; [reflexivity|]. split; [reflexivity|].
      destruct Hcheck as [Hq|Habs]; [exact Hq | discriminate].
  - intros w wk Hw Hpc. destruct (Hfront w wk Hw) as [Hne _].
    specialize (Hne Hpc).
    destruct (tasks s) as [|task q] eqn:Hq; [congruence|].
    exists task, q. unfold step, worker_step. rewrite Hw. cbn. rewrite Hpc, Hq.
    eexists. split; [reflexivity|]. split; [reflexivity|]. cbn.
    rewrite (lookup_set_pc_eq _ _ _ _ Hw). repeat split.
  - intros w wk Hw Hpc.
    refine (run_exit sched _ _ Hrun _ w wk Hw Hpc).
    intros w0 wk0 Hw0 Hpc0. unfold start, ThreadPool_init in Hw0. cbn in Hw0.
    apply lookup_replicate in Hw0 as [-> _]. discriminate.
  - intros Hstop sched' s' Hrun'.
    destruct (run_stopped _ _ _ Hrun' Hstop) as (Hstop' & Hc & Hq).
    split; [exact Hstop'|]. split; [exact Hc|].
    intros Hnf. destruct (Hq Hnf) as (Hd & Hp & _). split; assumption.
Qed.

End StopCheck.

Lemma worker_stop_check_decides_witness :
  exists s : Pool.state nat,
    Pool.run (replicate 4 (Pool.EvMain 0)
              ++ [Pool.EvWorker 0; Pool.EvWorker 0; Pool.EvMain 0])
             (Pool.start 1 [Pool.CEnqueue 7%nat; Pool.CDestroy]) = Some s
    /\ Pool.stop s = true /\ Pool.tasks s = [7%nat]
    /\ Pool.pc <$> Pool.workers s !! 0%nat = Some Pool.WCheckStop
    /\ (exists s', Pool.step (Pool.EvWorker 0) s = Some s'
          /\ Pool.tasks s' = [7%nat]
          /\ Pool.pc <$> Pool.workers s' !! 0%nat = Some Pool.WExited)
    /\ (forall (sched' : list Pool.event) s', Pool.run sched' s = Some s' ->
          Pool.stop s' = true /\ Pool.dequeued s' = []
          /\ [7%nat] `prefix_of` Pool.tasks s').
Proof.
  eexists. split; [vm_compute; reflexivity|].
  split; [reflexivity|]. split; [reflexivity|]. split; [reflexivity|].
  destruct (worker_stop_check_decides 1 [Pool.CEnqueue 7%nat; Pool.CDestroy]
              (replicate 4 (Pool.EvMain 0)
               ++ [Pool.EvWorker 0; Pool.EvWorker 0; Pool.EvMain 0]) _
              ltac:(vm_compute; reflexivity)) as (Hcheck & _ & _ & Hstopped).
  split.
  - destruct (Hcheck 0%nat _ eq_refl eq_refl) as (s' & Hstep & Hq & _ & Hpc & _).
    exists s'. split; [exact Hstep|]. split; [exact Hq | exact Hpc].
  - intros sched' s' Hrun'.
    destruct (Hstopped eq_refl sched' s' Hrun') as (Hstop' & _ & Hq).
    split; [exact Hstop'|]. apply Hq.
    intros w wk Hw Hpc. destruct w as [|w]; cbn in Hw; [|discriminate].
    injection Hw as <-. discriminate.
Defined.

(** C1 as stated fails: with [stop] true and the Job 7 in the queue,
    the worker gets the stop signal and the Job stays where it is.  The
    state is one the pool reaches: one worker, [enqueue(7)], then the
    first line of the destructor, then the worker takes the lock.  The
    same happens when the worker has found the queue non-empty in the
    predicate of line 44 with [stop] still false, and line 61 sets [stop]
    before the worker comes to line 45: line 61 does not take the lock.
    In both runs no later schedule dequeues the Job. *)
Lemma dequeue_blocking_stopping_counterexample :
  Pool.dequeue_blocking [7%nat] true = (Pool.NoJobStop, [7%nat])
  /\ (exists s s' : Pool.state nat,
        Pool.run [Pool.EvMain 0; Pool.EvMain 0; Pool.EvMain 0; Pool.EvMain 0;
                  Pool.EvMain 0; Pool.EvWorker 0]
                 (Pool.start 1 [Pool.CEnqueue 7%nat; Pool.CDestroy]) = Some s
        /\ Pool.stop s = true /\ Pool.tasks s = [7%nat]
        /\ Pool.pc <$> Pool.workers s !! 0%nat = Some Pool.WWait
        /\ Pool.run [Pool.EvWorker 0; Pool.EvWorker 0] s = Some s'
        /\ Pool.pc <$> Pool.workers s' !! 0%nat = Some Pool.WExited
        /\ Pool.tasks s' = [7%nat] /\ Pool.dequeued s' = []
        /\ Pool.executed s' = []
        /\ (forall (sched' : list Pool.event) s'',
              Pool.run sched' s' = Some s'' ->
              Pool.dequeued s'' = [] /\ [7%nat] `prefix_of` Pool.tasks s''))
  /\ (exists s1 s2 s3 : Pool.state nat,
        Pool.run [Pool.EvMain 0; Pool.EvMain 0; Pool.EvMain 0; Pool.EvMain 0;
                  Pool.EvWorker 0; Pool.EvWorker 0]
                 (Pool.start 1 [Pool.CEnqueue 7%nat; Pool.CDestroy]) = Some s1
        /\ Pool.stop s1 = false /\ Pool.tasks s1 = [7%nat]
        /\ Pool.pc <$> Pool.workers s1 !! 0%nat = Some Pool.WCheckStop
        /\ Pool.step (Pool.EvMain 0) s1 = Some s2
        /\ Pool.stop s2 = true
        /\ Pool.step (Pool.EvWorker 0) s2 = Some s3
        /\ Pool.pc <$> Pool.workers s3 !! 0%nat = Some Pool.WExited
        /\ Pool.tasks s3 = [7%nat] /\ Pool.dequeued s3 = []
        /\ (forall (sched' : list Pool.event) s'',
              Pool.run sched' s3 = Some s'' ->
              Pool.dequeued s'' = [] /\ [7%nat] `prefix_of` Pool.tasks s''))
  /\ ~ (forall (q : list nat) (task : nat) (q' : list nat),
          q = task :: q' ->
          Pool.dequeue_blocking q true = (Pool.GotJob task, q')).
Proof.
  assert (Hnf : forall s : Pool.state nat,
            Pool.pc <$> Pool.workers s !! 0%nat = Some Pool.WExited ->
            length (Pool.workers s) = 1%nat -> Pool.no_front s).
  { intros s Hpc Hlen w wk Hw Hfr.
    destruct (Pool.workers s) as [|wk0 [|? ?]]; try discriminate.
    destruct w as [|w]; cbn in Hw; [|discriminate].
    injection Hw as ->. cbn in Hpc. congruence. }
  split; [reflexivity|]. split; [|split].
  - eexists. eexists. split; [vm_compute; reflexivity|].
    do 8 (split; [reflexivity|]).
    intros sched' s'' Hrun.
    match type of Hrun with Pool.run _ ?s0 = _ =>
      destruct (run_stopped sched' s0 s'' Hrun eq_refl) as (_ & _ & Hq);
      destruct (Hq (Hnf s0 eq_refl eq_refl)) as (Hd & Hp & _)
    end.
    split; [exact Hd | exact Hp].
  - eexists. eexists. eexists. split; [vm_compute; reflexivity|].
    split; [reflexivity|]. split; [reflexivity|]. split; [reflexivity|].
    split; [vm_compute; reflexivity|]. split; [reflexivity|].
    split; [vm_compute; reflexivity|].
    split; [reflexivity|]. split; [reflexivity|]. split; [reflexivity|].
    intros sched' s'' Hrun.
    match type of Hrun with Pool.run _ ?s0 = _ =>
      destruct (run_stopped sched' s0 s'' Hrun eq_refl) as (_ & _ & Hq);
      destruct (Hq (Hnf s0 eq_refl eq_refl)) as (Hd & Hp & _)
    end.
    split; [exact Hd | exact Hp].
  - intros H. specialize (H [7%nat] 7%nat [] eq_refl). discriminate.
Qed.

(* ===================================================================== *)
(** * Order and number of executions                                     *)
(* ===================================================================== *)

Section Execution.
Import Pool.
Context {Job : Type}.
Implicit Types (s : state Job) (ws : list (worker Job)) (wk : worker Job).

Lemma in_flight_exited ws :
  (forall w wk, ws !! w = Some wk -> pc wk = WExited) -> in_flight ws = [].
Proof.
  unfold in_flight. induction ws as [|wk0 ws IH]; intros Hall; [reflexivity|].
  cbn. rewrite (Hall 0%nat wk0 eq_refl). cbn.
  apply IH. intros w wk Hw. apply (Hall (S w) wk Hw).
Qed.

(** Once the destructor has returned, every worker has. *)
Lemma shutdown_all_exited prog s :
  Inv prog s -> (0 < shutdowns s)%nat -> all_exited s.
Proof.
  intros Hinv Hsh w wk Hw.
  apply (inv_joined _ _ Hinv w wk Hw).
  apply (proj2 (inv_dtor _ _ Hinv) Hsh w wk Hw).
Qed.

(** Workers that have returned stay so, and nothing more is executed. *)
Lemma step_all_exited e s s' :
  step e s = Some s' -> all_exited s ->
  all_exited s' /\ executed s' = executed s /\ tasks s ⊆+ tasks s'.
Proof.
  unfold all_exited. intros Hstep Hall.
  step_cases Hstep;
    try (specialize (Hall _ _ Hwk); discriminate);
    (split; [|split; [reflexivity|]]);
    try reflexivity; try (apply submseteq_inserts_r; reflexivity);
    intros w' wk' Hlk;
    try (apply lookup_notify_one_inv in Hlk as (wk0 & Hlk & _ & Hpc));
    try (apply lookup_notify_all_inv in Hlk as (wk0 & Hlk & _ & Hpc));
    try (apply lookup_set_joined_inv in Hlk as (wk0 & Hlk & Hpc & _));
    try (apply (Hall _ _ Hlk));
    pose proof (Hall _ _ Hlk) as Hex;
    try (destruct Hpc as [Hpc|[Hpc _]]); congruence.
Qed.

Lemma run_all_exited sched : forall s s',
  run sched s = Some s' -> all_exited s ->
  all_exited s' /\ executed s' = executed s.
Proof.
  induction sched as [|e sched IH]; intros s s' Hrun Hall; cbn in Hrun.
  - injection Hrun as <-. auto.
  - destruct (step e s) as [s1|] eqn:Hstep; cbn in Hrun; [|discriminate].
    destruct (step_all_exited _ _ _ Hstep Hall) as (Hall1 & Hex1 & _).
    destruct (IH _ _ Hrun Hall1) as [Hall' Hex']. split; [exact Hall'|].
    congruence.
Qed.

(** C4: in every run of a pool whose Jobs are submitted by its one
    owner, the [i]-th Job popped from the queue is the [i]-th Job pushed,
    which is the [i]-th Job the owner's calls of [enqueue] name: the
    pops follow the submission order. *)
Theorem dequeue_order_fifo (threads : Z) (prog : list (call Job))
    (sched : list event) s :
  run sched (start threads prog) = Some s ->
  dequeued s ++ tasks s = submitted s
  /\ submitted s `prefix_of` jobs_of prog
  /\ forall (i : nat) (task : Job),
       dequeued s !! i = Some task ->
       submitted s !! i = Some task /\ jobs_of prog !! i = Some task.
Proof.
  intros Hrun.
  pose proof (reachable_Inv threads prog s (ex_intro _ sched Hrun)) as Hinv.
  pose proof (inv_fifo _ _ Hinv) as Hfifo.
  pose proof (submitted_prefix _ _ (inv_prog _ _ Hinv)) as Hprog.
  split; [exact Hfifo|]. split; [exact Hprog|].
  intros i task Hi.
  assert (Hsub : submitted s !! i = Some task)
    by (rewrite <- Hfifo; apply lookup_app_l_Some, Hi).
  split; [exact Hsub|].
  destruct Hprog as [rest ->]. apply lookup_app_l_Some, Hsub.
Qed.

(** C2, amended: in every run, each submitted Job is executed at most
    once (the executed Jobs are a sub-multiset of the pushed ones, which
    are a prefix of the owner's submissions).  When the destructor has
    returned, every worker has returned, the executed Jobs are exactly
    the popped ones, and the Jobs still in the queue, which were never
    executed, never will be. *)
Theorem jobs_executed_at_most_once (threads : Z) (prog : list (call Job))
    (sched : list event) s :
  run sched (start threads prog) = Some s ->
  executed s ⊆+ submitted s
  /\ submitted s `prefix_of` jobs_of prog
  /\ (NoDup (jobs_of prog) -> NoDup (executed s))
  /\ ((0 < shutdowns s)%nat ->
      all_exited s
      /\ executed s ≡ₚ dequeued s
      /\ executed s ++ tasks s ≡ₚ submitted s
      /\ forall sched' s', run sched' s = Some s' -> executed s' = executed s).
Proof.
  intros Hrun.
  pose proof (reachable_Inv threads prog s (ex_intro _ sched Hrun)) as Hinv.
  pose proof (inv_fifo _ _ Hinv) as Hfifo.
  pose proof (inv_exec _ _ Hinv) as Hexec. unfold exec_ok in Hexec.
  pose proof (submitted_prefix _ _ (inv_prog _ _ Hinv)) as Hprog.
  assert (Hsub : executed s ⊆+ submitted s).
  { rewrite <- Hfifo, <- Hexec, <- app_assoc.
    apply submseteq_inserts_r. reflexivity. }
  assert (Hpre : submitted s `prefix_of` jobs_of prog) by exact Hprog.
  split; [exact Hsub|]. split; [exact Hpre|]. split.
  - intros Hnd.
    assert (Hall : executed s ⊆+ jobs_of prog).
    { etrans; [exact Hsub|]. destruct Hpre as [k ->].
      apply submseteq_inserts_r. reflexivity. }
    apply submseteq_Permutation in Hall as [k Hk].
    rewrite Hk in Hnd. apply NoDup_app in Hnd as [Hnd _]. exact Hnd.
  - intros Hsh.
    pose proof (shutdown_all_exited _ _ Hinv Hsh) as Hall.
    rewrite (in_flight_exited _ Hall), app_nil_r in Hexec.
    split; [exact Hall|]. split; [exact Hexec|].
    split; [rewrite Hexec, Hfifo; reflexivity|].
    intros sched' s' Hrun'. apply (run_all_exited _ _ _ Hrun' Hall).
Qed.

End Execution.

Lemma dequeue_order_fifo_witness :
  exists s : Pool.state nat,
    Pool.run (replicate 8 (Pool.EvMain 0)
              ++ replicate 5 (Pool.EvWorker 0) ++ replicate 4 (Pool.EvWorker 1))
             Pool.main_start = Some s
    /\ Pool.dequeued s !! 1%nat = Some 1%nat
    /\ Pool.submitted s !! 1%nat = Some 1%nat
    /\ Pool.jobs_of Pool.main_program !! 1%nat = Some 1%nat.
Proof.
  eexists. split; [vm_compute; reflexivity|]. split; [reflexivity|].
  eapply (dequeue_order_fifo 4 Pool.main_program
            (replicate 8 (Pool.EvMain 0)
             ++ replicate 5 (Pool.EvWorker 0) ++ replicate 4 (Pool.EvWorker 1))).
  - vm_compute. reflexivity.
  - reflexivity.
Defined.

Lemma jobs_executed_at_most_once_witness :
  exists s : Pool.state nat,
    Pool.run (replicate 8 (Pool.EvMain 0) ++ replicate 6 (Pool.EvWorker 0))
             Pool.main_start = Some s
    /\ Pool.executed s = [0%nat]
    /\ Pool.executed s ⊆+ Pool.submitted s.
Proof.
  eexists. split; [vm_compute; reflexivity|]. split; [reflexivity|].
  eapply (jobs_executed_at_most_once 4 Pool.main_program
            (replicate 8 (Pool.EvMain 0) ++ replicate 6 (Pool.EvWorker 0))).
  vm_compute. reflexivity.
Defined.

(** C2 as stated fails: one worker, one Job submitted while the pool
    runs, then the destructor.  If the worker first takes the lock after
    [stop] is set, it returns without the Job; the destructor joins it
    and returns with the Job still in the queue, never executed. *)
Lemma shutdown_leaves_job_counterexample :
  (exists s : Pool.state nat,
     Pool.run (replicate 6 (Pool.EvMain 0) ++ replicate 3 (Pool.EvWorker 0)
               ++ replicate 2 (Pool.EvMain 0))
              (Pool.start 1 [Pool.CEnqueue 7%nat; Pool.CDestroy]) = Some s
     /\ Pool.shutdowns s = 1%nat /\ Pool.caller s = Pool.MIdle
     /\ Pool.program s = []
     /\ Pool.submitted s = [7%nat] /\ Pool.executed s = []
     /\ Pool.tasks s = [7%nat])
  /\ ~ (forall (threads : Z) (prog : list (Pool.call nat))
               (sched : list Pool.event) (s : Pool.state nat),
          1 <= threads ->
          Pool.run sched (Pool.start threads prog) = Some s ->
          (0 < Pool.shutdowns s)%nat ->
          Pool.executed s ≡ₚ Pool.jobs_of prog).
Proof.
  assert (Hrun : Pool.run (replicate 6 (Pool.EvMain 0)
                   ++ replicate 3 (Pool.EvWorker 0) ++ replicate 2 (Pool.EvMain 0))
                  (Pool.start 1 [Pool.CEnqueue 7%nat; Pool.CDestroy])
                 = Some (Pool.mkState [Pool.mkWorker Pool.WExited false] [7%nat]
                           true None Pool.MIdle [] [7%nat] [] [] 1)).
  { vm_compute. reflexivity. }
  split.
  - eexists. split; [exact Hrun|]. repeat split; reflexivity.
  - intros H. specialize (H 1 _ _ _ ltac:(lia) Hrun ltac:(cbn; lia)).
    apply Permutation_length in H. discriminate.
Qed.

(* ===================================================================== *)
(** * The destructor and the sleeping worker                             *)
(* ===================================================================== *)

(** Why the test and the sleep of line 44 are two steps: [stop] is
    written without the mutex, so the destructor can set it and notify
    between the two.  The worker then sleeps with [stop] set, and only a
    spurious wake-up lets the destructor's [join] return. *)
Remark destructor_lost_wakeup_example :
  exists s : Pool.state nat,
    Pool.run [Pool.EvWorker 0; Pool.EvWorker 0; Pool.EvMain 0; Pool.EvMain 0;
              Pool.EvWorker 0] (Pool.start 1 [Pool.CDestroy]) = Some s
    /\ Pool.stop s = true
    /\ Pool.pc <$> Pool.workers s !! 0%nat = Some Pool.WBlocked
    /\ Pool.caller s = Pool.MDtorJoin 0
    /\ (forall c, Pool.step (Pool.EvMain c) s = None)
    /\ (forall w, Pool.step (Pool.EvWorker w) s = None).
Proof.
  eexists. split; [vm_compute; reflexivity|].
  split; [reflexivity|]. split; [reflexivity|]. split; [reflexivity|].
  split; [intros c; reflexivity|].
  intros [|w]; reflexivity.
Qed.

(* ===================================================================== *)
(** * Submission and the critical sections                               *)
(* ===================================================================== *)

Section Enqueue.
Import Pool.
Context {Job : Type}.
Implicit Types (s : state Job) (ws : list (worker Job)) (wk : worker Job).

(** C6: a call of [enqueue(f)] has one way to wait, the mutex being
    taken; with the mutex free its four lines run through, for a queue of
    any length: [f] is appended at the back of [tasks], [notify_one] wakes
    one of the workers asleep on [cond] if there is any, the mutex is free
    again, and nothing else of the pool has changed. *)
Theorem enqueue_appends s (f : Job) (rest : list (call Job)) (c1 c2 c3 c4 : nat) :
  caller s = MIdle ->
  program s = CEnqueue f :: rest ->
  (queue_mutex s <> None -> step (EvMain c1) s = None)
  /\ (queue_mutex s = None ->
      exists s',
        run [EvMain c1; EvMain c2; EvMain c3; EvMain c4] s = Some s'
        /\ tasks s' = tasks s ++ [f]
        /\ submitted s' = submitted s ++ [f]
        /\ stop s' = stop s /\ queue_mutex s' = None
        /\ caller s' = MIdle /\ program s' = rest
        /\ dequeued s' = dequeued s /\ executed s' = executed s
        /\ shutdowns s' = shutdowns s
        /\ workers s' = notify_one c3 (workers s)
        /\ ((forall w wk, workers s !! w = Some wk -> is_blocked wk = false) ->
            workers s' = workers s)
        /\ ((exists w wk, workers s !! w = Some wk /\ is_blocked wk = true) ->
            exists w wk, workers s !! w = Some wk /\ pc wk = WBlocked
                         /\ workers s' = set_pc w WWoken (workers s))).
Proof.
  intros Hcaller Hprog.
  destruct s as [ws q st m c prog sub deq exe sh]. cbn in *. subst.
  split.
  - intros Hm. unfold main_step. cbn. destruct m; [reflexivity | congruence].
  - intros ->. eexists. split; [reflexivity|]. cbn.
    repeat (split; [reflexivity|]).
    destruct (notify_one_spec c3 ws) as [[Heq Hnb]|(w & wk & Hw & Hpc & Heq)].
    + split; [intros _; exact Heq|].
      intros (w & wk & Hw & Hb). rewrite (Hnb w wk Hw) in Hb. discriminate.
    + split; [|intros _; exists w, wk; auto].
      intros Hnb. specialize (Hnb w wk Hw). unfold is_blocked in Hnb.
      rewrite Hpc in Hnb. discriminate.
Qed.

(** C7: in every state the pool reaches, a worker about to call a Job
    does not hold [queue_mutex]; a step that executes a Job is the call
    of line 49 by such a worker, with the mutex as it was; a worker that
    has popped a Job holds the mutex and its next line, 48, releases it
    before the call; and the caller owns the mutex exactly inside the
    three lines of [enqueue] after the lock, from which it gets to the
    release in at most three steps of its own. *)
Theorem lock_not_held_across_job (threads : Z) (prog : list (call Job))
    (sched : list event) s :
  run sched (start threads prog) = Some s ->
  (forall w wk task, workers s !! w = Some wk -> pc wk = WCall task ->
     queue_mutex s <> Some (Wk w))
  /\ (forall e s', step e s = Some s' -> executed s' <> executed s ->
        exists w wk task,
          e = EvWorker w /\ workers s !! w = Some wk /\ pc wk = WCall task
          /\ executed s' = executed s ++ [task]
          /\ queue_mutex s <> Some (Wk w)
          /\ queue_mutex s' = queue_mutex s)
  /\ (forall w wk task, workers s !! w = Some wk -> pc wk = WUnlock task ->
        queue_mutex s = Some (Wk w)
        /\ exists s', step (EvWorker w) s = Some s'
             /\ queue_mutex s' = None
             /\ pc <$> workers s' !! w = Some (WCall task)
             /\ executed s' = executed s)
  /\ (queue_mutex s = Some Main <-> mpc_holds (caller s) = true)
  /\ (mpc_holds (caller s) = true ->
        forall c, exists (n : nat) s',
          (n <= 3)%nat /\ run (replicate n (EvMain c)) s = Some s'
          /\ queue_mutex s' = None /\ caller s' = MIdle).
Proof.
  intros Hrun.
  pose proof (reachable_Inv threads prog s (ex_intro _ sched Hrun)) as Hinv.
  pose proof (inv_mutex _ _ Hinv) as Hmx.
  assert (Hcall : forall w wk task, workers s !! w = Some wk ->
                    pc wk = WCall task -> queue_mutex s <> Some (Wk w)).
  { intros w wk task Hw Hpc Hm. specialize (Hmx (Wk w)). cbn in Hmx.
    unfold wholds in Hmx. rewrite Hw, Hpc, Hm in Hmx. cbn in Hmx.
    rewrite bool_decide_eq_true_2 in Hmx by reflexivity. discriminate. }
  split; [exact Hcall|]. split; [|split; [|split]].
  - intros e s' Hstep Hne.
    assert (Hw : exists w wk task,
               e = EvWorker w /\ workers s !! w = Some wk /\ pc wk = WCall task
               /\ executed s' = executed s ++ [task]
               /\ queue_mutex s' = queue_mutex s).
    { clear Hrun Hinv Hmx Hcall.
      step_cases Hstep; try (exfalso; apply Hne; reflexivity).
      exists w, (mkWorker (WCall task) jn), task.
      split; [reflexivity|]. split; [exact Hwk|]. repeat split. }
    destruct Hw as (w & wk & task & -> & Hw & Hpc & Hex & Hm).
    exists w, wk, task. repeat split; try assumption.
    apply (Hcall w wk task Hw Hpc).
  - intros w wk task Hw Hpc.
    assert (Hm : queue_mutex s = Some (Wk w)).
    { specialize (Hmx (Wk w)). cbn in Hmx. unfold wholds in Hmx.
      rewrite Hw, Hpc in Hmx. cbn in Hmx. symmetry in Hmx.
      apply bool_decide_eq_true in Hmx. exact Hmx. }
    split; [exact Hm|].
    unfold step, worker_step. rewrite Hw. cbn. rewrite Hpc.
    eexists. split; [reflexivity|]. cbn. split; [reflexivity|].
    rewrite (lookup_set_pc_eq _ _ _ _ Hw). split; reflexivity.
  - specialize (Hmx Main). cbn in Hmx. rewrite Hmx. split.
    + intros ->. apply bool_decide_eq_true_2. reflexivity.
    + intros H. apply bool_decide_eq_true in H. exact H.
  - intros Hh c. destruct s as [ws q st m cl prog0 sub deq exe sh].
    cbn in Hh. destruct cl; try discriminate.
    + exists 3%nat. eexists. split; [lia|]. split; [reflexivity|].
      split; reflexivity.
    + exists 2%nat. eexists. split; [lia|]. split; [reflexivity|].
      split; reflexivity.
    + exists 1%nat. eexists. split; [lia|]. split; [reflexivity|].
      split; reflexivity.
Qed.

End Enqueue.

Lemma enqueue_appends_witness :
  let s := Pool.mkState [Pool.mkWorker Pool.WBlocked true;
                         Pool.mkWorker Pool.WBlocked true]
             [3%nat] false None Pool.MIdle [Pool.CEnqueue 5%nat; Pool.CDestroy]
             [3%nat] [] [] 0 in
  (Pool.queue_mutex s <> None -> Pool.step (Pool.EvMain 0) s = None)
  /\ (Pool.queue_mutex s = None ->
      exists s',
        Pool.run [Pool.EvMain 0; Pool.EvMain 0; Pool.EvMain 1; Pool.EvMain 0] s
        = Some s'
        /\ Pool.tasks s' = Pool.tasks s ++ [5%nat]
        /\ Pool.submitted s' = Pool.submitted s ++ [5%nat]
        /\ Pool.stop s' = Pool.stop s /\ Pool.queue_mutex s' = None
        /\ Pool.caller s' = Pool.MIdle /\ Pool.program s' = [Pool.CDestroy]
        /\ Pool.dequeued s' = Pool.dequeued s
        /\ Pool.executed s' = Pool.executed s
        /\ Pool.shutdowns s' = Pool.shutdowns s
        /\ Pool.workers s' = Pool.notify_one 1 (Pool.workers s)
        /\ ((forall w wk, Pool.workers s !! w = Some wk ->
               Pool.is_blocked wk = false) ->
            Pool.workers s' = Pool.workers s)
        /\ ((exists w wk, Pool.workers s !! w = Some wk
                          /\ Pool.is_blocked wk = true) ->
            exists w wk, Pool.workers s !! w = Some wk
                         /\ Pool.pc wk = Pool.WBlocked
                         /\ Pool.workers s'
                            = Pool.set_pc w Pool.WWoken (Pool.workers s))).
Proof.
  intros s.
  apply (enqueue_appends s 5%nat [Pool.CDestroy] 0 0 1 0); reflexivity.
Defined.

Lemma lock_not_held_across_job_witness :
  exists s : Pool.state nat,
    Pool.run (replicate 4 (Pool.EvMain 0) ++ replicate 5 (Pool.EvWorker 2))
             Pool.main_start = Some s
    /\ Pool.pc <$> Pool.workers s !! 2%nat = Some (Pool.WCall 0%nat)
    /\ forall w wk task,
         Pool.workers s !! w = Some wk -> Pool.pc wk = Pool.WCall task ->
         Pool.queue_mutex s <> Some (Pool.Wk w).
Proof.
  eexists. split; [vm_compute; reflexivity|]. split; [reflexivity|].
  eapply (proj1 (lock_not_held_across_job 4 Pool.main_program
            (replicate 4 (Pool.EvMain 0) ++ replicate 5 (Pool.EvWorker 2)) _ _)).
  Unshelve. vm_compute. reflexivity.
Defined.

(* ===================================================================== *)
(** * More invariants of the pool                                        *)
(* ===================================================================== *)

Section PoolInvariants.
Import Pool.
Context {Job : Type}.
Implicit Types (s : state Job) (ws : list (worker Job)) (wk : worker Job).
Implicit Types (w k : nat) (t : tid) (e : event) (prog : list (call Job)).

Lemma step_first_run e s s' :
  step e s = Some s' -> first_run_ok s -> first_run_ok s'.
Proof.
  unfold first_run_ok. intros Hstep Hinv.
  step_cases Hstep; intros Hsh; try discriminate;
    destruct (Hinv Hsh) as [Hthrown Hj];
    (split; [try discriminate; try exact Hthrown | intros i wk' Hlk Hjn]);
    try (apply lookup_notify_one_inv in Hlk as (wk0 & Hlk & Hjn0 & _);
         rewrite Hjn0 in Hjn);
    try (apply lookup_notify_all_inv in Hlk as (wk0 & Hlk & Hjn0 & _);
         rewrite Hjn0 in Hjn);
    try (apply lookup_set_pc_inv in Hlk as [(<- & _ & wk0 & Hlk & Hjn0)|[Hne Hlk]];
         [rewrite Hjn0 in Hjn|]);
    try (destruct (Hj _ _ Hlk Hjn) as (k0 & [=] & _); fail);
    try (destruct (Hj _ _ Hlk Hjn) as (k0 & Hk0 & Hlt); exists k0; split;
         [exact Hk0 | exact Hlt]).
  - exists (S k). split; [reflexivity|].
    apply lookup_set_joined_inv in Hlk as (wk0 & Hlk & _ & [[Hne ->]|[-> _]]);
      [|lia].
    destruct (Hj _ _ Hlk Hjn) as (k0 & [= <-] & Hlt). lia.
  - match goal with
    | Hw : _ !! ?k = Some ?w, Hf : joinable ?w = false |- _ =>
        destruct (Hj _ _ Hw Hf) as (k0 & [= <-] & Hlt); lia
    end.
  - match goal with
    | Hw : _ !! ?k = Some ?w, Hf : joinable ?w = false |- _ =>
        destruct (Hj _ _ Hw Hf) as (k0 & [= <-] & Hlt); lia
    end.
Qed.

Lemma run_first_run sched : forall s s',
  run sched s = Some s' -> first_run_ok s -> first_run_ok s'.
Proof.
  induction sched as [|e sched IH]; intros s s' Hrun Hinv; cbn in Hrun.
  - injection Hrun as <-. exact Hinv.
  - destruct (step e s) as [s1|] eqn:Hstep; cbn in Hrun; [|discriminate].
    apply (IH s1 s' Hrun). exact (step_first_run _ _ _ Hstep Hinv).
Qed.

Lemma step_order e s s' :
  step e s = Some s' -> order_ok s -> order_ok s'.
Proof.
  unfold order_ok. intros Hstep Hinv.
  step_cases Hstep; destruct Hinv as (wk0 & -> & Hord);
    try (destruct w as [|w]; [|discriminate]; injection Hwk as ->);
    cbn in Hord; rewrite ?app_nil_r in Hord; subst;
    try (eexists; split; [reflexivity|]; cbn; rewrite ?app_nil_r; reflexivity).
  - destruct (notify_one_spec ch [wk0]) as [[-> _]|(w & wk & Hw & Hpc & ->)].
    + exists wk0. split; reflexivity.
    + destruct w as [|w]; [|discriminate]. injection Hw as ->.
      eexists. split; [reflexivity|]. cbn. rewrite Hpc. reflexivity.
  - exists (wake wk0). split; [reflexivity|]. rewrite job_of_wake. reflexivity.
  - destruct k as [|k]; eexists; (split; [reflexivity|]); reflexivity.
Qed.

Lemma run_order sched : forall s s',
  run sched s = Some s' -> order_ok s -> order_ok s'.
Proof.
  induction sched as [|e sched IH]; intros s s' Hrun Hinv; cbn in Hrun.
  - injection Hrun as <-. exact Hinv.
  - destruct (step e s) as [s1|] eqn:Hstep; cbn in Hrun; [|discriminate].
    apply (IH s1 s' Hrun). exact (step_order _ _ _ Hstep Hinv).
Qed.

Lemma lookup_set_pc_same ws w (p : wpc Job) :
  set_pc w p ws !! w = (fun wk => mkWorker p (joinable wk)) <$> ws !! w.
Proof. rewrite lookup_set_pc, decide_True by reflexivity. reflexivity. Qed.

(** Runs the next lines of a worker whose entry in [workers] is [Hw]. *)
Ltac worker_runs Hw :=
  cbn [replicate Pool.run Pool.step mbind option_bind];
  repeat progress (try unfold Pool.worker_step at 1; unfold Pool.wait_pred;
                   cbn; rewrite ?lookup_set_pc_same, ?Hw; cbn).

(** ** What holds in every state a pool reaches *)

(** X9: in every state a pool reaches, at most one thread is inside a
    critical section of [queue_mutex], and that thread is the recorded
    owner of the mutex. *)
Theorem mutual_exclusion (threads : Z) prog (sched : list event) s t t' :
  run sched (start threads prog) = Some s ->
  holds s t = true -> holds s t' = true ->
  t = t' /\ queue_mutex s = Some t.
Proof.
  intros Hrun Ht Ht'.
  pose proof (inv_mutex _ _ (reachable_Inv threads prog s (ex_intro _ sched Hrun)))
    as Hmx.
  split; [exact (mutex_exclusive s t t' Hmx Ht Ht')|].
  rewrite Hmx in Ht. apply bool_decide_eq_true in Ht. exact Ht.
Qed.

(** X10: in every state a pool reaches, a step that changes the queue
    [tasks] is a step of the thread that owns [queue_mutex]: the deque is
    never written without the lock. *)
Theorem queue_written_under_lock (threads : Z) prog (sched : list event) s e s' :
  run sched (start threads prog) = Some s ->
  step e s = Some s' -> tasks s' <> tasks s ->
  queue_mutex s = Some (thread_of e) /\ holds s (thread_of e) = true.
Proof.
  intros Hrun Hstep Hne.
  pose proof (inv_mutex _ _ (reachable_Inv threads prog s (ex_intro _ sched Hrun)))
    as Hmx.
  pose proof (queue_changes_under_lock e s s' Hmx Hstep Hne) as Hown.
  split; [exact Hown|].
  rewrite Hmx. apply bool_decide_eq_true_2. exact Hown.
Qed.

(** X11: in every state a pool reaches, a worker at lines 46-47 finds
    a Job at the front of the queue: [front] and [pop_front] are never
    called on an empty deque, and the step removes exactly the front Job. *)
Theorem front_never_on_empty_queue (threads : Z) prog (sched : list event) s w wk :
  run sched (start threads prog) = Some s ->
  workers s !! w = Some wk -> pc wk = WFront ->
  exists (task : Job) (q : list Job) s',
    tasks s = task :: q
    /\ step (EvWorker w) s = Some s'
    /\ tasks s' = q /\ dequeued s' = dequeued s ++ [task]
    /\ pc <$> workers s' !! w = Some (WUnlock task).
Proof.
  intros Hrun Hw Hpc.
  pose proof (inv_front _ _ (reachable_Inv threads prog s (ex_intro _ sched Hrun)))
    as Hfront.
  destruct (Hfront w wk Hw) as [Hne _]. specialize (Hne Hpc).
  destruct (tasks s) as [|task q] eqn:Hq; [congruence|].
  exists task, q. unfold step, worker_step. rewrite Hw. cbn. rewrite Hpc, Hq.
  eexists. split; [reflexivity|]. split; [reflexivity|]. cbn.
  rewrite lookup_set_pc_same, Hw. repeat split.
Qed.

(** X12: the pool has a fixed size: in every state it reaches, the
    vector [workers] has the length the constructor gave it. *)
Theorem worker_count_fixed (threads : Z) prog (sched : list event) s :
  run sched (start threads prog) = Some s ->
  length (workers s) = Z.to_nat (size_t_of_int threads).
Proof.
  intros Hrun. rewrite (run_size _ _ _ Hrun).
  unfold start, ThreadPool_init. cbn. apply length_replicate.
Qed.

(** X13: a worker thread returns only after [stop] has been set: while
    [stop] is false, no worker of a pool has left its loop. *)
Theorem worker_exits_only_when_stopped (threads : Z) prog (sched : list event)
    s w wk :
  run sched (start threads prog) = Some s ->
  workers s !! w = Some wk -> pc wk = WExited ->
  stop s = true.
Proof.
  intros Hrun Hw Hpc.
  assert (Hinit : exit_ok (start threads prog)).
  { intros w0 wk0 Hw0 Hpc0. unfold start, ThreadPool_init in Hw0. cbn in Hw0.
    apply lookup_replicate in Hw0 as [-> _]. discriminate. }
  exact (run_exit _ _ _ Hrun Hinit w wk Hw Hpc).
Qed.

(** X14: the first run of the destructor never throws: until a run of
    the destructor has returned, every [join] it makes is on a joinable
    handle, and the handles no longer joinable are exactly those of the
    workers its loop has already passed, each of them joined once and its
    worker returned. *)
Theorem first_destructor_run_joins_once (threads : Z) prog (sched : list event) s :
  run sched (start threads prog) = Some s ->
  shutdowns s = 0%nat ->
  caller s <> MThrown
  /\ (forall (i : nat) wk,
        workers s !! i = Some wk -> joinable wk = false ->
        pc wk = WExited /\ exists k : nat, caller s = MDtorJoin k /\ (i < k)%nat)
  /\ (forall (k i : nat) wk,
        caller s = MDtorJoin k -> (i < k)%nat -> workers s !! i = Some wk ->
        joinable wk = false /\ pc wk = WExited)
  /\ (forall (k : nat) wk,
        caller s = MDtorJoin k -> workers s !! k = Some wk -> joinable wk = true).
Proof.
  intros Hrun Hsh.
  assert (Hinit : first_run_ok (start threads prog)).
  { intros _. split; [discriminate|]. intros i wk Hw Hj.
    unfold start, ThreadPool_init in Hw. cbn in Hw.
    apply lookup_replicate in Hw as [-> _]. discriminate. }
  destruct (run_first_run _ _ _ Hrun Hinit Hsh) as [Hthrown Hj].
  pose proof (reachable_Inv threads prog s (ex_intro _ sched Hrun)) as Hinv.
  split; [exact Hthrown|]. split; [|split].
  - intros i wk Hw Hjn. split.
    + exact (inv_joined _ _ Hinv i wk Hw Hjn).
    + exact (Hj i wk Hw Hjn).
  - intros k i wk Hc Hlt Hw.
    pose proof (proj1 (inv_dtor _ _ Hinv) k Hc i wk Hlt Hw) as Hjn.
    split; [exact Hjn|]. exact (inv_joined _ _ Hinv i wk Hw Hjn).
  - intros k wk Hc Hw. destruct (joinable wk) eqn:Hjn; [reflexivity|].
    destruct (Hj k wk Hw Hjn) as (k' & Hc' & Hlt).
    rewrite Hc in Hc'. injection Hc' as <-. lia.
Qed.

(** X16: a pool of one worker executes the Jobs in the order of their
    submission: in every state it reaches, the Jobs called so far are, in
    order, the first Jobs that were popped, pushed and submitted. *)
Theorem single_worker_runs_in_order (prog : list (call Job)) (sched : list event) s :
  run sched (start 1 prog) = Some s ->
  executed s `prefix_of` dequeued s
  /\ executed s `prefix_of` submitted s
  /\ executed s `prefix_of` jobs_of prog.
Proof.
  intros Hrun.
  assert (Hinit : order_ok (start 1 prog)).
  { exists (mkWorker WLock true). split; reflexivity. }
  destruct (run_order _ _ _ Hrun Hinit) as (wk & _ & Hord).
  pose proof (reachable_Inv 1 prog s (ex_intro _ sched Hrun)) as Hinv.
  pose proof (inv_fifo _ _ Hinv) as Hfifo.
  pose proof (submitted_prefix _ _ (inv_prog _ _ Hinv)) as H3.
  assert (H1 : executed s `prefix_of` dequeued s) by (eexists; symmetry; exact Hord).
  assert (H2 : dequeued s `prefix_of` submitted s) by (eexists; symmetry; exact Hfifo).
  split; [exact H1|]. split; [etrans; eassumption|].
  etrans; [exact H1|]. etrans; eassumption.
Qed.

(** X15: no thread blocks while it owns the mutex: in every state a
    pool reaches in which worker [w] owns [queue_mutex], the worker can run,
    and four steps of its own at most take it to the release of the mutex
    (by going to sleep, by returning, or by [locker.unlock()]). *)
Theorem worker_releases_mutex (threads : Z) prog (sched : list event) s w :
  run sched (start threads prog) = Some s ->
  queue_mutex s = Some (Wk w) ->
  exists (n : nat) s',
    (1 <= n <= 4)%nat
    /\ run (replicate n (EvWorker w)) s = Some s'
    /\ queue_mutex s' = None.
Proof.
  intros Hrun Hm.
  pose proof (reachable_Inv threads prog s (ex_intro _ sched Hrun)) as Hinv.
  pose proof (inv_mutex _ _ Hinv (Wk w)) as Hmx.
  rewrite Hm, bool_decide_eq_true_2 in Hmx by reflexivity.
  cbn in Hmx. unfold wholds in Hmx.
  destruct (workers s !! w) as [wk|] eqn:Hw; [|discriminate].
  pose proof (inv_front _ _ Hinv w wk Hw) as [Hfront Hcheck].
  clear Hrun Hinv Hm.
  destruct s as [ws q st m c prog0 sub deq exe sh], wk as [p jn].
  cbn in *.
  destruct p; try discriminate.
  - (* WWait *)
    destruct q as [|task q], st.
    + exists 2%nat. eexists. split; [lia|]. worker_runs Hw. split; reflexivity.
    + exists 2%nat. eexists. split; [lia|]. worker_runs Hw. split; reflexivity.
    + exists 2%nat. eexists. split; [lia|]. worker_runs Hw. split; reflexivity.
    + exists 4%nat. eexists. split; [lia|]. worker_runs Hw. split; reflexivity.
  - (* WSleep *)
    exists 1%nat. eexists. split; [lia|]. worker_runs Hw. split; reflexivity.
  - (* WCheckStop *)
    destruct st.
    + exists 1%nat. eexists. split; [lia|]. worker_runs Hw. split; reflexivity.
    + destruct (Hcheck eq_refl) as [Hq|Hst]; [|discriminate].
      destruct q as [|task q]; [congruence|].
      exists 3%nat. eexists. split; [lia|]. worker_runs Hw. split; reflexivity.
  - (* WFront *)
    specialize (Hfront eq_refl). destruct q as [|task q]; [congruence|].
    exists 2%nat. eexists. split; [lia|]. worker_runs Hw. split; reflexivity.
  - (* WUnlock *)
    exists 1%nat. eexists. split; [lia|]. worker_runs Hw. split; reflexivity.
Qed.


End PoolInvariants.

Lemma mutual_exclusion_witness :
  exists s : Pool.state nat,
    Pool.run (replicate 4 (Pool.EvMain 0) ++ [Pool.EvWorker 2]) Pool.main_start
    = Some s
    /\ Pool.Wk 2 = Pool.Wk 2 /\ Pool.queue_mutex s = Some (Pool.Wk 2).
Proof.
  eexists. split; [vm_compute; reflexivity|].
  eapply (mutual_exclusion 4 Pool.main_program
            (replicate 4 (Pool.EvMain 0) ++ [Pool.EvWorker 2])).
  - vm_compute. reflexivity.
  - reflexivity.
  - reflexivity.
Defined.

Lemma queue_written_under_lock_witness :
  exists s : Pool.state nat,
    Pool.run [Pool.EvMain 0] Pool.main_start = Some s
    /\ Pool.queue_mutex s = Some (Pool.thread_of (Pool.EvMain 0))
    /\ Pool.holds s (Pool.thread_of (Pool.EvMain 0)) = true.
Proof.
  eexists. split; [vm_compute; reflexivity|].
  eapply (queue_written_under_lock 4 Pool.main_program [Pool.EvMain 0] _
            (Pool.EvMain 0)).
  - vm_compute. reflexivity.
  - vm_compute. reflexivity.
  - cbn. discriminate.
Defined.

Lemma front_never_on_empty_queue_witness :
  exists (s : Pool.state nat) (task : nat) (q : list nat) (s' : Pool.state nat),
    Pool.run (replicate 4 (Pool.EvMain 0) ++ replicate 3 (Pool.EvWorker 0))
             Pool.main_start = Some s
    /\ Pool.tasks s = task :: q
    /\ Pool.step (Pool.EvWorker 0) s = Some s'
    /\ Pool.tasks s' = q /\ Pool.dequeued s' = Pool.dequeued s ++ [task]
    /\ Pool.pc <$> Pool.workers s' !! 0%nat = Some (Pool.WUnlock task).
Proof.
  eexists.
  destruct (front_never_on_empty_queue 4 Pool.main_program
              (replicate 4 (Pool.EvMain 0) ++ replicate 3 (Pool.EvWorker 0))
              _ 0 (Pool.mkWorker Pool.WFront true)
              ltac:(vm_compute; reflexivity) eq_refl eq_refl)
    as (task & q & s' & H).
  exists task, q, s'. split; [vm_compute; reflexivity | exact H].
Defined.

Lemma worker_count_fixed_witness :
  exists s : Pool.state nat,
    Pool.run (replicate 9 (Pool.EvMain 0)) Pool.main_start = Some s
    /\ length (Pool.workers s) = Z.to_nat (Pool.size_t_of_int 4).
Proof.
  eexists. split; [vm_compute; reflexivity|].
  eapply (worker_count_fixed 4 Pool.main_program (replicate 9 (Pool.EvMain 0))).
  vm_compute. reflexivity.
Defined.

Lemma worker_exits_only_when_stopped_witness :
  exists s : Pool.state nat,
    Pool.run (Pool.EvMain 0 :: replicate 3 (Pool.EvWorker 0))
             (Pool.start 1 [Pool.CDestroy]) = Some s
    /\ Pool.stop s = true.
Proof.
  eexists. split; [vm_compute; reflexivity|].
  eapply (worker_exits_only_when_stopped 1 [Pool.CDestroy]
            (Pool.EvMain 0 :: replicate 3 (Pool.EvWorker 0)) _ 0
            (Pool.mkWorker Pool.WExited true)).
  - vm_compute. reflexivity.
  - reflexivity.
  - reflexivity.
Defined.

Lemma first_destructor_run_joins_once_witness :
  exists s : Pool.state nat,
    Pool.run (replicate 2 (Pool.EvMain 0) ++ replicate 3 (Pool.EvWorker 0)
              ++ [Pool.EvMain 0]) (Pool.start 2 [Pool.CDestroy]) = Some s
    /\ Pool.caller s = Pool.MDtorJoin 1
    /\ Pool.caller s <> Pool.MThrown
    /\ (forall (i : nat) wk,
          Pool.workers s !! i = Some wk -> Pool.joinable wk = false ->
          Pool.pc wk = Pool.WExited
          /\ exists k : nat, Pool.caller s = Pool.MDtorJoin k /\ (i < k)%nat)
    /\ (forall (k i : nat) wk,
          Pool.caller s = Pool.MDtorJoin k -> (i < k)%nat ->
          Pool.workers s !! i = Some wk ->
          Pool.joinable wk = false /\ Pool.pc wk = Pool.WExited)
    /\ (forall (k : nat) wk,
          Pool.caller s = Pool.MDtorJoin k -> Pool.workers s !! k = Some wk ->
          Pool.joinable wk = true).
Proof.
  eexists. split; [vm_compute; reflexivity|]. split; [reflexivity|].
  eapply (first_destructor_run_joins_once 2 [Pool.CDestroy]
            (replicate 2 (Pool.EvMain 0) ++ replicate 3 (Pool.EvWorker 0)
             ++ [Pool.EvMain 0])).
  - vm_compute. reflexivity.
  - reflexivity.
Defined.

Lemma single_worker_runs_in_order_witness :
  exists s : Pool.state nat,
    Pool.run (replicate 8 (Pool.EvMain 0) ++ replicate 6 (Pool.EvWorker 0))
             (Pool.start 1 [Pool.CEnqueue 5%nat; Pool.CEnqueue 6%nat]) = Some s
    /\ Pool.executed s = [5%nat]
    /\ Pool.executed s `prefix_of` Pool.dequeued s
    /\ Pool.executed s `prefix_of` Pool.submitted s
    /\ Pool.executed s
       `prefix_of` Pool.jobs_of [Pool.CEnqueue 5%nat; Pool.CEnqueue 6%nat].
Proof.
  eexists. split; [vm_compute; reflexivity|]. split; [reflexivity|].
  eapply (single_worker_runs_in_order
            [Pool.CEnqueue 5%nat; Pool.CEnqueue 6%nat]
            (replicate 8 (Pool.EvMain 0) ++ replicate 6 (Pool.EvWorker 0))).
  vm_compute. reflexivity.
Defined.

Lemma worker_releases_mutex_witness :
  exists (s : Pool.state nat) (n : nat) (s' : Pool.state nat),
    Pool.run [Pool.EvWorker 1] Pool.main_start = Some s
    /\ (1 <= n <= 4)%nat
    /\ Pool.run (replicate n (Pool.EvWorker 1)) s = Some s'
    /\ Pool.queue_mutex s' = None.
Proof.
  eexists.
  destruct (worker_releases_mutex 4 Pool.main_program [Pool.EvWorker 1] _ 1
              ltac:(vm_compute; reflexivity) eq_refl) as (n & s' & H).
  exists n, s'. split; [vm_compute; reflexivity | exact H].
Defined.

